(** * opt_einsum: the contraction planner and its orchestration

    A shallow embedding of [opt_einsum.py], read as the Python 2 program it
    is: [map] and [zip] build lists and integers are unbounded.

    - Index labels are the characters of the einsum string; a term is a
      [list ascii], a label set a [gset ascii], the dimension dictionary a
      [gmap ascii Z].
    - A raised exception is the [Raise] branch of [result]; code that can
      raise runs in that monad.
    - A Python set is iterated in the order of [elements]. Python fixes no
      order; the sizes the planners compute do not depend on it
      ([compute_size_perm]).
    - [list.sort] and [sorted] are the stable insertion sort [py_sort] over
      Python's [<] on the items.
    - An operand is given by its shape. The arrays and the NumPy primitives
      that combine them are outside this file: the contraction loop is
      followed through its label bookkeeping, which decides every branch, and
      through the primitive each step calls. *)

From Stdlib Require Import ZArith Ascii String.
From stdpp Require Import gmap strings list sorting.

Open Scope Z_scope.

(** ** Exceptions and the error monad *)

Inductive exn :=
  | KeyError (c : ascii)          (* a dictionary lookup that misses *)
  | UnboundLocalError             (* a local read before any assignment *)
  | IndexError                    (* list index or pop out of range *)
  | UnpackError                   (* [a, b = xs] with [len(xs) <> 2] *)
  | UnsupportedExpression         (* ValueError: ellipsis, line 188 *)
  | TermCountMismatch             (* ValueError, line 201 *)
  | RankMismatch (tnum : nat)     (* ValueError, line 209 *)
  | LabelSizeConflict (c : ascii) (* ValueError, line 214 *)
  | UnknownStrategy.              (* KeyError, line 256 *)

Inductive result (A : Type) :=
  | Ok (x : A)
  | Raise (e : exn).
Arguments Ok {A} x.
Arguments Raise {A} e.

Global Instance result_ret : MRet result := λ A x, Ok x.
Global Instance result_bind : MBind result := λ A B k m,
  match m with
  | Ok x => k x
  | Raise e => Raise e
  end.

Fixpoint foldlM {A B} (f : A → B → result A) (a : A) (l : list B) : result A :=
  match l with
  | [] => Ok a
  | x :: l => a' ← f a x; foldlM f a' l
  end.

(** ** Labels, label sets, dictionaries *)

Abbreviation label := ascii (only parsing).
Abbreviation labels := (gset ascii) (only parsing).
Abbreviation dims := (gmap ascii Z) (only parsing).
Abbreviation str := (list ascii) (only parsing).

(** The characters of a string literal. *)
Definition chars (s : string) : str := list_ascii_of_string s.

(** [set(term)] *)
Definition set_of (term : str) : labels := list_to_set term.

(** [ind_dict[i]] *)
Definition getitem (ind_dict : dims) (i : label) : result Z :=
  match ind_dict !! i with
  | Some v => Ok v
  | None => Raise (KeyError i)
  end.

(** [_compute_size(inds, ind_dict)]: [inds] is any iterable of labels, given
    here by the sequence in which it is iterated. *)
Definition _compute_size (inds : str) (ind_dict : dims) : result Z :=
  foldlM (fun ret i => v ← getitem ind_dict i; Ok (ret * v)) 1 inds.

(** [enumerate(xs)] *)
Definition enumerate {A} (xs : list A) : list (nat * A) :=
  zip (seq 0 (length xs)) xs.

(** [_find_contraction(positions, input_sets, output_set)]; the loop state is
    [(index_contract, index_remain, remaining)]. *)
Definition find_contraction_body (positions : list nat)
    (st : labels * labels * list labels) (iv : nat * labels)
    : labels * labels * list labels :=
  let '(index_contract, index_remain, remaining) := st in
  let '(ind, value) := iv in
  if bool_decide (ind ∈ positions)
  then (index_contract ∪ value, index_remain, remaining)
  else (index_contract, index_remain ∪ value, remaining ++ [value]).

Definition _find_contraction (positions : list nat) (input_sets : list labels)
    (output_set : labels) : labels * list labels * labels * labels :=
  let '(index_contract, index_remain, remaining) :=
    foldl (find_contraction_body positions) (∅, output_set, [])
          (enumerate input_sets) in
  let new_result := index_remain ∩ index_contract in
  let index_removed := index_contract ∖ new_result in
  (new_result, remaining ++ [new_result], index_removed, index_contract).

(** ** IndexAlgebra, in the words of the specification *)

(** The operand label sets at the selected positions, and the others, both
    in operand order. *)
Fixpoint pick_from (keep : nat → bool) (i : nat) (terms : list labels)
    : list labels :=
  match terms with
  | [] => []
  | t :: terms =>
      if keep i then t :: pick_from keep (S i) terms
      else pick_from keep (S i) terms
  end.

Definition selected_terms (positions : list nat) (terms : list labels) :=
  pick_from (fun i => bool_decide (i ∈ positions)) 0%nat terms.
Definition untouched_terms (positions : list nat) (terms : list labels) :=
  pick_from (fun i => negb (bool_decide (i ∈ positions))) 0%nat terms.

Definition touched_labels (positions : list nat) (terms : list labels) : labels :=
  ⋃ selected_terms positions terms.
Definition result_labels (positions : list nat) (terms : list labels)
    (output_labels : labels) : labels :=
  (⋃ untouched_terms positions terms ∪ output_labels)
    ∩ touched_labels positions terms.
Definition remaining_terms (positions : list nat) (terms : list labels)
    (output_labels : labels) : list labels :=
  untouched_terms positions terms ++ [result_labels positions terms output_labels].
Definition eliminated_labels (positions : list nat) (terms : list labels)
    (output_labels : labels) : labels :=
  touched_labels positions terms ∖ result_labels positions terms output_labels.

Definition plan_contraction (positions : list nat) (terms : list labels)
    (output_labels : labels) : labels * list labels * labels * labels :=
  (result_labels positions terms output_labels,
   remaining_terms positions terms output_labels,
   eliminated_labels positions terms output_labels,
   touched_labels positions terms).

(** [size_of(label_set, dim_table)]: the product of the sizes of the labels. *)
Definition dim_of (d : dims) (c : label) : Z := default 1 (d !! c).
Definition list_prod (l : list Z) : Z := foldr Z.mul 1 l.
Definition size_of (s : labels) (d : dims) : Z :=
  list_prod (dim_of d <$> elements s).

(** ** Library behaviour the planners rely on *)

(** [np.triu_indices(n, 1)] zipped: the pairs [(i, j)] with [i < j < n], row
    by row (NumPy's documented order). A tuple of positions is a [list nat]. *)
Definition triu_indices (n : nat) : list (list nat) :=
  i ← seq 0 n; (fun j => [i; j]) <$> seq (S i) (n - S i).

(** Python compares sequences lexicographically: the first pair of unequal
    items decides by [<]; if there is none the shorter sequence is smaller. *)
Fixpoint py_seq_lt {A} `{EqDecision A} (lt : A → A → bool) (l1 l2 : list A)
    : bool :=
  match l1, l2 with
  | [], [] => false
  | [], _ :: _ => true
  | _ :: _, [] => false
  | x :: l1, y :: l2 =>
      if decide (x = y) then py_seq_lt lt l1 l2 else lt x y
  end.

Definition tuple_lt : list nat → list nat → bool := py_seq_lt Nat.ltb.
Definition positions_lt : list (list nat) → list (list nat) → bool :=
  py_seq_lt tuple_lt.
(** [a < b] on sets is proper inclusion. *)
Definition set_lt (a b : labels) : bool := bool_decide (a ⊂ b).
Definition sets_lt : list labels → list labels → bool := py_seq_lt set_lt.

(** [list.sort()] is stable and calls only [<]: an insertion sort that puts
    every item behind the items it is not smaller than. *)
Fixpoint py_insert {A} (lt : A → A → bool) (x : A) (l : list A) : list A :=
  match l with
  | [] => [x]
  | y :: l' => if lt x y then x :: l else y :: py_insert lt x l'
  end.
Definition py_sort {A} (lt : A → A → bool) (l : list A) : list A :=
  foldl (fun acc x => py_insert lt x acc) [] l.

(** [x] does not come after [y] in the strict order [lt]. *)
Definition not_after {A} (lt : A → A → bool) (x y : A) : Prop :=
  lt y x = false.

(** [xs[0]] *)
Definition first_item {A} (xs : list A) : result A :=
  match xs with
  | x :: _ => Ok x
  | [] => Raise IndexError
  end.

(** ** [_path_optimal] *)

(** A candidate [(total_cost, positions, indices_remaining)]. *)
Definition cand : Type := Z * list (list nat) * list labels.
Definition cand_cost (c : cand) : Z := c.1.1.
Definition cand_positions (c : cand) : list (list nat) := c.1.2.
Definition cand_remaining (c : cand) : list labels := c.2.

Definition cand_lt (a b : cand) : bool :=
  if bool_decide (cand_cost a ≠ cand_cost b)
  then cand_cost a <? cand_cost b
  else if bool_decide (cand_positions a ≠ cand_positions b)
  then positions_lt (cand_positions a) (cand_positions b)
  else sets_lt (cand_remaining a) (cand_remaining b).

(** The body of [for con in comb_iter], lines 59-74; [new] is threaded. *)
Definition path_optimal_con (out_set : labels) (ind_dict : dims) (memory : Z)
    (curr : cand) (new : list cand) (con : list nat) : result (list cand) :=
  let '(cost, positions, remaining) := curr in
  let '(new_result, new_inp, index_removed, index_contract) :=
    _find_contraction con remaining out_set in
  sz ← _compute_size (elements new_result) ind_dict;
  if bool_decide (memory < sz) then Ok new
  else
    new_cost ← _compute_size (elements index_contract) ind_dict;
    let new_cost :=
      if bool_decide (0 < size index_removed)%nat then new_cost * 2
      else new_cost in
    let new_cost := new_cost + cost in
    let new_pos := positions ++ [con] in
    Ok (new ++ [(new_cost, new_pos, new_inp)]).

(** One pass of [for iteration in range(len(inp) - 1)], lines 52-74: the
    value of [new] when the pass ends. *)
Definition path_optimal_iteration (out_set : labels) (ind_dict : dims)
    (memory : Z) (n : nat) (current : list cand) (iteration : nat)
    : result (list cand) :=
  let comb_iter := triu_indices (n - iteration) in
  foldlM (fun new curr =>
            foldlM (path_optimal_con out_set ind_dict memory curr) new comb_iter)
         [] current.

(** The locals [current] and [new]; [new] is unbound until the loop body has
    run once. *)
Definition path_optimal_loop (out_set : labels) (ind_dict : dims) (memory : Z)
    (n : nat) (inp_set : list labels)
    : result (list cand * option (list cand)) :=
  foldlM (fun (st : list cand * option (list cand)) iteration =>
            new ← path_optimal_iteration out_set ind_dict memory n st.1 iteration;
            Ok (new, Some new))
         ([(0, [], inp_set)], None) (seq 0 (n - 1)).

Definition _path_optimal (inp : list str) (out : labels) (ind_dict : dims)
    (memory : Z) : result (list (list nat)) :=
  let inp_set := set_of <$> inp in
  let out_set := out in
  st ← path_optimal_loop out_set ind_dict memory (length inp) inp_set;
  match st.2 with
  | None => Raise UnboundLocalError
  | Some new =>
      if bool_decide (length new = 0%nat) then Ok [seq 0 (length inp)]
      else best ← first_item (py_sort cand_lt new); Ok (cand_positions best)
  end.

(** ** [_path_opportunistic] *)

(** An entry [[sort, positions, new_inp]] of [iteration_results]. *)
Definition entry : Type := (Z * Z) * list nat * list labels.
Definition entry_sort (e : entry) : Z * Z := e.1.1.
Definition entry_positions (e : entry) : list nat := e.1.2.
Definition entry_inp (e : entry) : list labels := e.2.

Definition sort_key_lt (a b : Z * Z) : bool :=
  if bool_decide (a.1 ≠ b.1) then a.1 <? b.1
  else if bool_decide (a.2 ≠ b.2) then a.2 <? b.2 else false.

Definition entry_lt (a b : entry) : bool :=
  if bool_decide (entry_sort a ≠ entry_sort b)
  then sort_key_lt (entry_sort a) (entry_sort b)
  else if bool_decide (entry_positions a ≠ entry_positions b)
  then tuple_lt (entry_positions a) (entry_positions b)
  else sets_lt (entry_inp a) (entry_inp b).

(** The body of [for positions in comb_iter], lines 106-119. *)
Definition path_opportunistic_con (out_set : labels) (ind_dict : dims)
    (memory : Z) (inp_set : list labels) (iteration_results : list entry)
    (positions : list nat) : result (list entry) :=
  let '(index_result, new_inp, index_removed, index_contract) :=
    _find_contraction positions inp_set out_set in
  sz ← _compute_size (elements index_result) ind_dict;
  if bool_decide (memory < sz) then Ok iteration_results
  else
    removed_size ← _compute_size (elements index_removed) ind_dict;
    cost ← _compute_size (elements index_contract) ind_dict;
    let sort := (- removed_size, cost) in
    Ok (iteration_results ++ [(sort, positions, new_inp)]).

(** The loop of lines 101-130 over the iterations still to run; the state is
    [(path, inp_set)] and [break] ends the recursion. *)
Fixpoint path_opportunistic_loop (out_set : labels) (ind_dict : dims)
    (memory : Z) (n : nat) (iterations : list nat)
    (path : list (list nat)) (inp_set : list labels)
    : result (list (list nat)) :=
  match iterations with
  | [] => Ok path
  | iteration :: iterations =>
      let comb_iter := triu_indices (length inp_set) in
      iteration_results ←
        foldlM (path_opportunistic_con out_set ind_dict memory inp_set)
               [] comb_iter;
      if bool_decide (length iteration_results = 0%nat)
      then Ok (path ++ [seq 0 (n - iteration)])
      else
        best ← first_item (py_sort entry_lt iteration_results);
        path_opportunistic_loop out_set ind_dict memory n iterations
          (path ++ [entry_positions best]) (entry_inp best)
  end.

Definition _path_opportunistic (inp : list str) (out : labels)
    (ind_dict : dims) (memory : Z) : result (list (list nat)) :=
  let inp_set := set_of <$> inp in
  let out_set := out in
  path_opportunistic_loop out_set ind_dict memory (length inp)
    (seq 0 (length inp - 1)) [] inp_set.

(** ** The planner, in the words of the specification *)

(** Cost of one step: the size of the touched labels, doubled if the step
    eliminates at least one label. *)
Definition step_cost (positions : list nat) (terms : list labels)
    (out : labels) (d : dims) : Z :=
  let c := size_of (touched_labels positions terms) d in
  if bool_decide (eliminated_labels positions terms out = ∅) then c else c * 2.

(** The unordered pairs of live positions, when [k] operands are live. *)
Definition unordered_pairs (k : nat) : list (list nat) := triu_indices k.

(** Extending a candidate sequence by one pair; nothing when the result
    labels exceed the memory ceiling. *)
Definition extend_candidate (out : labels) (d : dims) (ceiling : Z)
    (c : cand) (pair : list nat) : option cand :=
  let terms := cand_remaining c in
  if bool_decide (ceiling < size_of (result_labels pair terms out) d) then None
  else Some (cand_cost c + step_cost pair terms out d,
             cand_positions c ++ [pair],
             remaining_terms pair terms out).

(** One round: every surviving candidate with every unordered pair of its
    live positions. *)
Definition exhaustive_round (out : labels) (d : dims) (ceiling : Z)
    (frontier : list cand) : list cand :=
  c ← frontier;
  omap (extend_candidate out d ceiling c)
       (unordered_pairs (length (cand_remaining c))).

Definition exhaustive_frontier (out : labels) (d : dims) (ceiling : Z)
    (terms : list labels) (rounds : nat) : list cand :=
  Nat.iter rounds (exhaustive_round out d ceiling) [(0, [], terms)].

(** One scan in enumeration order that keeps the best item met so far and
    replaces it only by a strictly smaller one. *)
Definition scan_min {A} (lt : A → A → bool) (best : option A) (x : A)
    : option A :=
  match best with
  | None => Some x
  | Some b => if lt x b then Some x else Some b
  end.

(** The first candidate, in enumeration order, of lowest accumulated cost. *)
Definition cheaper (x b : cand) : bool := cand_cost x <? cand_cost b.
Definition first_min_cost (l : list cand) : option cand :=
  foldl (scan_min cheaper) None l.

(** The single step that contracts [k] live positions at once. *)
Definition full_step (k : nat) : list nat := seq 0 k.

Definition exhaustive_selected (terms : list labels) (out : labels) (d : dims)
    (ceiling : Z) : option cand :=
  first_min_cost (exhaustive_frontier out d ceiling terms (length terms - 1)).

Definition exhaustive_plan (terms : list labels) (out : labels) (d : dims)
    (ceiling : Z) : list (list nat) :=
  match exhaustive_selected terms out d ceiling with
  | Some c => cand_positions c
  | None => [full_step (length terms)]
  end.

(** Replaying a plan on the live operand label sets. *)
Fixpoint replay (out : labels) (terms : list labels) (plan : list (list nat))
    : list labels :=
  match plan with
  | [] => terms
  | p :: plan => replay out (remaining_terms p terms out) plan
  end.

(** The cost of a plan: the sum of the costs of its steps. *)
Fixpoint plan_cost (out : labels) (d : dims) (terms : list labels)
    (plan : list (list nat)) : Z :=
  match plan with
  | [] => 0
  | p :: plan =>
      step_cost p terms out d
      + plan_cost out d (remaining_terms p terms out) plan
  end.

(** Every step of the plan is an unordered pair of live positions. *)
Fixpoint pairwise_plan (k : nat) (plan : list (list nat)) : Prop :=
  match plan with
  | [] => True
  | p :: plan => p ∈ unordered_pairs k ∧ pairwise_plan (k - 1) plan
  end.

(** No step of the plan produces result labels larger than the ceiling. *)
Fixpoint within_ceiling (out : labels) (d : dims) (ceiling : Z)
    (terms : list labels) (plan : list (list nat)) : Prop :=
  match plan with
  | [] => True
  | p :: plan =>
      size_of (result_labels p terms out) d ≤ ceiling
      ∧ within_ceiling out d ceiling (remaining_terms p terms out) plan
  end.

(** A complete pairwise plan for [terms] that respects the ceiling. *)
Definition feasible_plan (out : labels) (d : dims) (ceiling : Z)
    (terms : list labels) (plan : list (list nat)) : Prop :=
  length plan = (length terms - 1)%nat
  ∧ pairwise_plan (length terms) plan
  ∧ within_ceiling out d ceiling terms plan.

(** Enumeration order of candidates: Python's order on their position
    lists. *)
Definition listed_before (a b : cand) : Prop :=
  positions_lt (cand_positions a) (cand_positions b) = true.

(** The shape of a plan for [k] live operands: pairs of live positions,
    possibly ended by one step over all the operands that are left. *)
Inductive reducing_plan : nat → list (list nat) → Prop :=
  | reducing_done : reducing_plan 1 []
  | reducing_full k : (2 ≤ k)%nat → reducing_plan k [full_step k]
  | reducing_pair k p plan :
      p ∈ unordered_pairs k → reducing_plan (k - 1) plan →
      reducing_plan k (p :: plan).

(** [operand_count - 1] steps, or fewer when a step fuses three or more
    operands. *)
Definition step_count_ok (n : nat) (plan : list (list nat)) : Prop :=
  length plan = (n - 1)%nat
  ∨ ((length plan < n - 1)%nat ∧ ∃ step, step ∈ plan ∧ (3 ≤ length step)%nat).

(** All labels of the operands have a size in the table. *)
Definition dims_cover (d : dims) (terms : list labels) : Prop :=
  ∀ t, t ∈ terms → t ⊆ dom d.

Global Instance dims_cover_dec d terms : Decision (dims_cover d terms).
Proof.
  refine (cast_if (decide (Forall (fun t => t ⊆ dom d) terms)));
    unfold dims_cover; by rewrite <-Forall_forall.
Defined.

(** Greedy ranking key of a pair: [(-eliminated_size, step_cost)]. *)
Definition greedy_key (out : labels) (d : dims) (terms : list labels)
    (pair : list nat) : Z * Z :=
  (- size_of (eliminated_labels pair terms out) d,
   size_of (touched_labels pair terms) d).

(** Tuples ascending: first components, then second components. *)
Definition key_le (a b : Z * Z) : Prop :=
  a.1 < b.1 ∨ (a.1 = b.1 ∧ a.2 ≤ b.2).

(** The entry the greedy round records for a pair, if the pair survives. *)
Definition greedy_entry (out : labels) (d : dims) (ceiling : Z)
    (terms : list labels) (pair : list nat) : option entry :=
  if bool_decide (ceiling < size_of (result_labels pair terms out) d) then None
  else Some (greedy_key out d terms pair, pair, remaining_terms pair terms out).

(** The pairs that survive the memory filter in a round. *)
Definition greedy_survivors (out : labels) (d : dims) (ceiling : Z)
    (terms : list labels) : list (list nat) :=
  filter (fun pair => size_of (result_labels pair terms out) d ≤ ceiling)
         (unordered_pairs (length terms)).

(** A run of the greedy strategy over the rounds still to play: each round
    commits a best-ranked surviving pair and plays on from the updated
    operand terms; a round without survivors ends the plan with one step over
    all live positions. *)
Inductive greedy_run (out : labels) (d : dims) (ceiling : Z)
    : nat → list labels → list (list nat) → Prop :=
  | greedy_done terms :
      greedy_run out d ceiling 0 terms []
  | greedy_fallback rounds terms :
      greedy_survivors out d ceiling terms = [] →
      greedy_run out d ceiling (S rounds) terms [full_step (length terms)]
  | greedy_commit rounds terms pair plan :
      pair ∈ greedy_survivors out d ceiling terms →
      (∀ q, q ∈ greedy_survivors out d ceiling terms →
            key_le (greedy_key out d terms pair) (greedy_key out d terms q)) →
      greedy_run out d ceiling rounds (remaining_terms pair terms out) plan →
      greedy_run out d ceiling (S rounds) terms (pair :: plan).

(** ** String operations of [contract] *)

(** ['->' in s] *)
Fixpoint has_arrow (s : str) : bool :=
  match s with
  | [] => false
  | c :: tl =>
      match tl with
      | c' :: _ =>
          (bool_decide (c = "-"%char) && bool_decide (c' = ">"%char))
          || has_arrow tl
      | [] => false
      end
  end.

(** [s.split('->')]: the separator is searched from the left and its
    occurrences do not overlap; [cur] is the piece being read, reversed. *)
Fixpoint split_arrow_from (cur : str) (s : str) : list str :=
  match s with
  | [] => [rev cur]
  | c :: tl =>
      match tl with
      | c' :: rest =>
          if bool_decide (c = "-"%char) && bool_decide (c' = ">"%char)
          then rev cur :: split_arrow_from [] rest
          else split_arrow_from (c :: cur) tl
      | [] => [rev (c :: cur)]
      end
  end.
Definition split_arrow (s : str) : list str := split_arrow_from [] s.

(** [s.split(',')] *)
Fixpoint split_comma_from (cur : str) (s : str) : list str :=
  match s with
  | [] => [rev cur]
  | c :: tl =>
      if bool_decide (c = ","%char) then rev cur :: split_comma_from [] tl
      else split_comma_from (c :: cur) tl
  end.
Definition split_comma (s : str) : list str := split_comma_from [] s.

(** [s.replace(',', '')] and, in general, [s.replace(c, '')] *)
Definition remove_char (c : ascii) (s : str) : str :=
  filter (fun x => x ≠ c) s.
Definition remove_commas (s : str) : str := remove_char ","%char s.

(** [s.count(c)] *)
Definition count_char (c : ascii) (s : str) : nat :=
  length (filter (fun x => x = c) s).

(** [sorted(...)] of characters: by character code. *)
Definition char_lt (a b : ascii) : bool := (nat_of_ascii a <? nat_of_ascii b)%nat.
Definition sorted_chars (s : labels) : str := py_sort char_lt (elements s).

(** [sep.join(pieces)] *)
Fixpoint join (sep : str) (pieces : list str) : str :=
  match pieces with
  | [] => []
  | [p] => p
  | p :: pieces => p ++ sep ++ join sep pieces
  end.

(** [for s in removed: t = t.replace(s, '')] *)
Definition remove_labels (removed : labels) (t : str) : str :=
  foldl (fun t s => remove_char s t) t (elements removed).

(** [s[-n:]] and [s[:n]] for a length [n] *)
Definition py_suffix (n : nat) (s : str) : str :=
  if bool_decide (n = 0%nat) then s else drop (length s - n) s.
Definition py_prefix (n : nat) (s : str) : str := take n s.

(** [s.find(c)]: the first position of [c], or -1 *)
Fixpoint py_find (c : ascii) (s : str) : Z :=
  match s with
  | [] => -1
  | x :: s => if bool_decide (x = c) then 0
              else let r := py_find c s in if bool_decide (r = -1) then -1 else r + 1
  end.

(** [xs[i]] and [xs.pop(i)] for [i >= 0] *)
Definition getitem_list {A} (xs : list A) (i : nat) : result A :=
  match xs !! i with
  | Some x => Ok x
  | None => Raise IndexError
  end.
Definition pop {A} (xs : list A) (i : nat) : result (A * list A) :=
  match xs !! i with
  | Some x => Ok (x, delete i xs)
  | None => Raise IndexError
  end.

(** [max(xs)] of a list that is never empty here *)
Definition py_max (xs : list Z) : result Z :=
  match xs with
  | [] => Raise IndexError
  | x :: xs => Ok (foldl Z.max x xs)
  end.

(** [sorted(list(contract_inds), reverse=True)] *)
Definition sorted_desc (l : list nat) : list nat :=
  py_sort (fun a b => (b <? a)%nat) l.

(** ** [contract]: parsing and validation, lines 175-216 *)

(** The output string of an expression without ['->'], lines 180-184. *)
Definition infer_output (string : str) : str :=
  let tmp_string := remove_commas string in
  foldl (fun output_string s =>
           if bool_decide (count_char s tmp_string = 1%nat)
           then output_string ++ [s] else output_string)
        [] (sorted_chars (set_of tmp_string)).

Definition split_expression (string : str) : result (str * str) :=
  if has_arrow string then
    match split_arrow string with
    | [input_string; output_string] => Ok (input_string, output_string)
    | _ => Raise UnpackError
    end
  else Ok (string, infer_output string).

(** The inner loop of lines 210-216 on one term; [sh] is the shape of its
    operand. *)
Definition check_label (sh : list Z) (dimension_dict : dims)
    (cc : nat * ascii) : result dims :=
  let '(cnum, char) := cc in
  dim ← getitem_list sh cnum;
  match dimension_dict !! char with
  | Some v =>
      if bool_decide (v ≠ dim) then Raise (LabelSizeConflict char)
      else Ok dimension_dict
  | None => Ok (<[char := dim]> dimension_dict)
  end.

(** The body of lines 206-216; an operand is given by its shape. *)
Definition check_term (views : list (list Z)) (dimension_dict : dims)
    (tt : nat * str) : result dims :=
  let '(tnum, term) := tt in
  sh ← getitem_list views tnum;
  if bool_decide (length sh ≠ length term) then Raise (RankMismatch tnum)
  else foldlM (check_label sh) dimension_dict (enumerate term).

Definition build_dimension_dict (input_list : list str)
    (views : list (list Z)) : result dims :=
  foldlM (check_term views) ∅ (enumerate input_list).

(** ** [contract]: choosing the path, lines 218-260 *)

(** The keyword arguments; [None] is an absent keyword. Debug printing has
    no effect on what is returned and is left out. *)
Inductive path_arg :=
  | PathName (name : str)
  | PathList (path : list (list nat)).

Record kwargs := {
  kw_tensordot : option bool;
  kw_path : option path_arg;
  kw_memory : option Z;
  kw_return_path : option bool;
}.

Definition no_kwargs : kwargs :=
  {| kw_tensordot := None; kw_path := None; kw_memory := None;
     kw_return_path := None |}.

(** What lines 245-256 decide to do for the path. *)
Inductive plan_request :=
  | GivenPath (path : list (list nat))
  | SinglePair
  | CallOpportunistic (inp : list str) (out : labels) (d : dims) (memory : Z)
  | CallOptimal (inp : list str) (out : labels) (d : dims) (memory : Z).

Definition choose_plan (path_arg : path_arg) (input_list : list str)
    (output_set : labels) (dimension_dict : dims) (memory_arg out_size : Z)
    : result plan_request :=
  match path_arg with
  | PathList path => Ok (GivenPath path)
  | PathName name =>
      if bool_decide (length input_list = 2%nat) then Ok SinglePair
      else if bool_decide (name = chars "opportunistic") then
        let memory_arg := Z.min memory_arg out_size in
        Ok (CallOpportunistic input_list output_set dimension_dict memory_arg)
      else if bool_decide (name = chars "optimal") then
        Ok (CallOptimal input_list output_set dimension_dict memory_arg)
      else Raise UnknownStrategy
  end.

Definition run_plan_request (r : plan_request) : result (list (list nat)) :=
  match r with
  | GivenPath path => Ok path
  | SinglePair => Ok [[0; 1]%nat]
  | CallOpportunistic inp out d memory => _path_opportunistic inp out d memory
  | CallOptimal inp out d memory => _path_optimal inp out d memory
  end.

(** ** [contract]: the contraction loop, lines 268-386 *)

(** The array primitive a step calls. The arrays themselves are NumPy's;
    the model keeps the labels, which decide every branch. *)
Inductive primitive :=
  | ScalarProduct                             (* np.dot, line 291 *)
  | VectorDot                                 (* line 324 *)
  | MatMul (transpose_left transpose_right : bool) (* lines 329-345 *)
  | PairEinsum (einsum_string : str)          (* line 350 *)
  | Tensordot (left_pos right_pos : list Z)   (* line 359 *)
  | Einsum (einsum_string : str).             (* line 375 *)

Record step_record := {
  step_inputs : list str;          (* tmp_input *)
  step_left_einsum : option str;   (* line 304, when it runs *)
  step_right_einsum : option str;  (* line 309, when it runs *)
  step_primitive : primitive;
  step_result : str;               (* index_result *)
}.

(** The loop of lines 278-280 on [input_list]; [views] is popped alike. *)
Definition pop_all (input_list : list str) (contract_inds : list nat)
    : result (list str * list str) :=
  foldlM (fun (st : list str * list str) x =>
            '(t, rest) ← pop st.2 x; Ok (st.1 ++ [t], rest))
         ([], input_list) contract_inds.

(** [(dimension_dict[ind], ind)] tuples in ascending order. *)
Definition size_label_lt (a b : Z * ascii) : bool :=
  if bool_decide (a.1 ≠ b.1) then a.1 <? b.1
  else if bool_decide (a.2 ≠ b.2) then char_lt a.2 b.2 else false.

(** Lines 296-367: the tensordot branch. *)
Definition tensordot_step (dimension_dict : dims) (index_removed : labels)
    (tmp_input : list str) (t0 t1 : str) : result step_record :=
  let input_left := t0 in
  let input_right := t1 in
  let keep_left := set_of input_left ∖ index_removed in
  let keep_right := set_of input_right ∖ index_removed in
  let '(left_einsum, input_left) :=
    if bool_decide (size (set_of input_left) ≠ length input_left) then
      let new_inds := elements keep_left ++ elements index_removed in
      (Some (input_left ++ chars "->" ++ new_inds), new_inds)
    else (None, input_left) in
  let '(right_einsum, input_right) :=
    if bool_decide (size (set_of input_right) ≠ length input_right) then
      let new_inds := elements index_removed ++ elements keep_right in
      (Some (input_right ++ chars "->" ++ new_inds), new_inds)
    else (None, input_right) in
  let rs := size index_removed in
  dim_left ← _compute_size (elements keep_left) dimension_dict;
  dim_right ← _compute_size (elements keep_right) dimension_dict;
  dim_removed ← _compute_size (elements index_removed) dimension_dict;
  let index_result := remove_labels index_removed (input_left ++ input_right) in
  let prim :=
    if bool_decide (input_left = input_right) then VectorDot
    else if bool_decide (py_suffix rs input_left = py_prefix rs input_right)
    then MatMul false false
    else if bool_decide (py_prefix rs input_left = py_suffix rs input_right)
    then MatMul true true
    else if bool_decide (py_suffix rs input_left = py_suffix rs input_right)
    then MatMul false true
    else if bool_decide (py_prefix rs input_left = py_prefix rs input_right)
    then MatMul true false
    else if bool_decide (size keep_left = 0%nat)
            || bool_decide (size keep_right = 0%nat)
    then PairEinsum (input_left ++ chars "," ++ input_right
                     ++ chars "->" ++ index_result)
    else Tensordot ((fun s => py_find s input_left) <$> elements index_removed)
                   ((fun s => py_find s input_right) <$> elements index_removed)
  in
  shape_result ← mapM (getitem dimension_dict) index_result;
  Ok {| step_inputs := tmp_input; step_left_einsum := left_einsum;
        step_right_einsum := right_einsum; step_primitive := prim;
        step_result := index_result |}.

(** Lines 370-375: the einsum branch. *)
Definition einsum_step (dimension_dict : dims) (out_inds : labels)
    (tmp_input : list str) : result step_record :=
  sort_result ← mapM (fun ind => v ← getitem dimension_dict ind; Ok (v, ind))
                     (elements out_inds);
  let index_result := snd <$> py_sort size_label_lt sort_result in
  let einsum_string := join (chars ",") tmp_input ++ chars "->" ++ index_result in
  Ok {| step_inputs := tmp_input; step_left_einsum := None;
        step_right_einsum := None; step_primitive := Einsum einsum_string;
        step_result := index_result |}.

(** The state of the loop: [input_set], [input_list] and the steps done. *)
Definition exec_state : Type := list labels * list str * list step_record.

(** The body of [for contract_inds in path], lines 270-385. *)
Definition contract_step (tdot_arg : bool) (dimension_dict : dims)
    (output_set : labels) (st : exec_state) (contract_inds : list nat)
    : result exec_state :=
  let '(input_set, input_list, done) := st in
  let contract_inds := sorted_desc contract_inds in
  let '(out_inds, input_set, index_removed, index_contract) :=
    _find_contraction contract_inds input_set output_set in
  '(tmp_input, input_list) ← pop_all input_list contract_inds;
  t0 ← getitem_list tmp_input 0;
  t1 ← getitem_list tmp_input 1;
  let tdot_result := remove_labels index_removed (t0 ++ t1) in
  let can_tdot :=
    tdot_arg && bool_decide (length tmp_input = 2%nat)
    && bool_decide (0 < size index_removed)%nat in
  let can_tdot :=
    can_tdot
    && bool_decide ((set_of t0 ∖ set_of t1) ∪ (set_of t1 ∖ set_of t0)
                    = set_of tdot_result) in
  rec ←
    (if (bool_decide (length t0 = 0%nat) || bool_decide (length t1 = 0%nat))
        && bool_decide (length tmp_input = 2%nat)
     then Ok {| step_inputs := tmp_input; step_left_einsum := None;
                step_right_einsum := None; step_primitive := ScalarProduct;
                step_result := t0 ++ t1 |}
     else if can_tdot
     then tensordot_step dimension_dict index_removed tmp_input t0 t1
     else einsum_step dimension_dict out_inds tmp_input);
  Ok (input_set, input_list ++ [step_result rec], done ++ [rec]).

(** ** [contract] *)

(** What [contract] returns: the value of one direct [np.einsum] call on the
    expression as given, the path, or the first operand left by the
    contraction loop, reordered by a last [np.einsum] when its term is not
    the output string. *)
Inductive outcome :=
  | DirectEinsum (string : str)
  | ReturnedPath (path : list (list nat))
  | Contracted (steps : list step_record) (last_term : str)
               (final_einsum : option str).

(** The locals that lines 186-232 compute from the two halves of the
    expression and the operands. *)
Record setup := {
  su_output_string : str;
  su_input_list : list str;
  su_input_set : list labels;
  su_output_set : labels;
  su_indices : labels;
  su_dimension_dict : dims;
  su_out_size : Z;
  su_total_flops : Z;
}.

Definition contract_setup (input_string output_string : str)
    (views : list (list Z)) : result setup :=
  if bool_decide ("."%char ∈ input_string)
     || bool_decide ("."%char ∈ output_string)
  then Raise UnsupportedExpression
  else
    let input_list := split_comma input_string in
    let input_set := set_of <$> input_list in
    let output_set := set_of output_string in
    let indices := set_of (remove_commas input_string) in
    if bool_decide (length input_list ≠ length views)
    then Raise TermCountMismatch
    else
      dimension_dict ← build_dimension_dict input_list views;
      size_list ← mapM (fun term => _compute_size term dimension_dict)
                       (input_list ++ [output_string]);
      out_size ← py_max size_list;
      total_flops ← _compute_size (elements indices) dimension_dict;
      Ok {| su_output_string := output_string; su_input_list := input_list;
            su_input_set := input_set; su_output_set := output_set;
            su_indices := indices; su_dimension_dict := dimension_dict;
            su_out_size := out_size; su_total_flops := total_flops |}.

Definition tdot_arg (kw : kwargs) : bool := default true (kw_tensordot kw).
Definition path_arg_of (kw : kwargs) : path_arg :=
  default (PathName (chars "opportunistic")) (kw_path kw).
Definition memory_arg (su : setup) (kw : kwargs) : Z :=
  default (su_out_size su) (kw_memory kw).
Definition return_path_arg (kw : kwargs) : bool :=
  default false (kw_return_path kw).

(** Lines 231-238: the two early returns. *)
Definition fast_path (su : setup) (kw : kwargs) : bool :=
  (bool_decide (su_total_flops su < 1000000) && negb (return_path_arg kw))
  || (bool_decide (su_indices su = su_output_set su)
      && negb (return_path_arg kw)).

(** Lines 245-256 on the locals of the call. *)
Definition contract_request (su : setup) (kw : kwargs) : result plan_request :=
  choose_plan (path_arg_of kw) (su_input_list su) (su_output_set su)
    (su_dimension_dict su) (memory_arg su kw) (su_out_size su).

(** Lines 268-392. *)
Definition contract_execute (su : setup) (kw : kwargs)
    (path : list (list nat)) : result outcome :=
  st ← foldlM (contract_step (tdot_arg kw) (su_dimension_dict su)
                 (su_output_set su))
              (su_input_set su, su_input_list su, []) path;
  let '(_, input_list, steps) := st in
  first ← getitem_list input_list 0;
  if bool_decide (first = su_output_string su)
  then Ok (Contracted steps first None)
  else Ok (Contracted steps first
             (Some (first ++ chars "->" ++ su_output_string su))).

(** [contract] once the expression is split; [string] is the expression as
    given, which only the early returns hand on. *)
Definition contract_parsed (string input_string output_string : str)
    (views : list (list Z)) (kw : kwargs) : result outcome :=
  su ← contract_setup input_string output_string views;
  if fast_path su kw then Ok (DirectEinsum string)
  else
    request ← contract_request su kw;
    path ← run_plan_request request;
    if return_path_arg kw then Ok (ReturnedPath path)
    else contract_execute su kw path.

Definition contract (string : str) (views : list (list Z)) (kw : kwargs)
    : result outcome :=
  '(input_string, output_string) ← split_expression string;
  contract_parsed string input_string output_string views kw.

(** The result a call would have had with [string] as its expression: only
    an early return hands the expression on. *)
Definition with_expression (string : str) (r : result outcome)
    : result outcome :=
  match r with
  | Ok (DirectEinsum _) => Ok (DirectEinsum string)
  | _ => r
  end.

(** ** Validation, in the words of the specification *)

(** Operand [tnum] has a number of axes other than the length of its term. *)
Definition rank_mismatch_at (input_list : list str) (views : list (list Z))
    (tnum : nat) : Prop :=
  ∃ term sh, input_list !! tnum = Some term ∧ views !! tnum = Some sh
             ∧ length sh ≠ length term.

(** Every (label, size) that an axis of an operand declares. *)
Definition label_sizes (input_list : list str) (views : list (list Z))
    : list (ascii * Z) :=
  concat (zip_with zip input_list views).

(** Label [c] is declared with two different sizes. *)
Definition size_conflict_on (input_list : list str) (views : list (list Z))
    (c : ascii) : Prop :=
  ∃ v v', v ≠ v' ∧ (c, v) ∈ label_sizes input_list views
          ∧ (c, v') ∈ label_sizes input_list views.

(** One entry of the dimension table: lines 212-216 on a (label, size). *)
Definition add_dim (dimension_dict : dims) (cv : ascii * Z) : result dims :=
  match dimension_dict !! cv.1 with
  | Some v =>
      if bool_decide (v ≠ cv.2) then Raise (LabelSizeConflict cv.1)
      else Ok dimension_dict
  | None => Ok (<[cv.1 := cv.2]> dimension_dict)
  end.

(** The table holds exactly the sizes declared so far. *)
Definition table_of (d : dims) (seen : list (ascii * Z)) : Prop :=
  ∀ c v, d !! c = Some v ↔ (c, v) ∈ seen.

(** ** Concrete operands *)

Ltac by_compute := apply (bool_decide_unpack _); vm_compute; exact I.

(** [ij,jk,kl->il] with sizes 2, 3, 4, 2. *)
Definition chain_inp : list str := [chars "ij"; chars "jk"; chars "kl"].
Definition chain_out : labels := set_of (chars "il").
Definition chain_dims : dims :=
  list_to_map [("i"%char, 2); ("j"%char, 3); ("k"%char, 4); ("l"%char, 2)].

(** [a,b,c->abc] with every size 2. *)
Definition outer_inp : list str := [chars "a"; chars "b"; chars "c"].
Definition outer_out : labels := set_of (chars "abc").
Definition outer_dims : dims :=
  list_to_map [("a"%char, 2); ("b"%char, 2); ("c"%char, 2)].


(** [ij->i] on a 1000 x 1000 operand. *)
Definition rowsum_string : str := chars "ij->i".
Definition rowsum_views : list (list Z) := [[1000; 1000]].

(** [ij,jk,kl->il] on operands large enough for a planned contraction. *)
Definition big_chain_views : list (list Z) :=
  [[200; 300]; [300; 400]; [400; 200]].

Definition kw_path_name (name : string) : kwargs :=
  {| kw_tensordot := None; kw_path := Some (PathName (chars name));
     kw_memory := None; kw_return_path := None |}.
Definition kw_with_memory (memory : Z) : kwargs :=
  {| kw_tensordot := None; kw_path := None; kw_memory := Some memory;
     kw_return_path := None |}.

(** [i,i,jk->k]: two vectors of length 1000 and a 10 x 1000 operand. *)
Definition dot_scale_string : str := chars "i,i,jk->k".
Definition dot_scale_views : list (list Z) := [[1000]; [1000]; [10; 1000]].
Definition dot_scale_inp : list str := [chars "i"; chars "i"; chars "jk"].
Definition dot_scale_out : labels := set_of (chars "k").
Definition dot_scale_dims : dims :=
  list_to_map [("i"%char, 1000); ("j"%char, 10); ("k"%char, 1000)].

(** The steps of [contract] on [i,i,jk->k]. *)
Definition dot_scale_steps : list step_record :=
  [ {| step_inputs := [chars "i"; chars "i"]; step_left_einsum := None;
       step_right_einsum := None; step_primitive := VectorDot;
       step_result := [] |};
    {| step_inputs := [[]; chars "jk"]; step_left_einsum := None;
       step_right_einsum := None; step_primitive := ScalarProduct;
       step_result := chars "jk" |} ].

(** * Properties of the index algebra *)

Section find_contraction.
Implicit Types (positions : list nat) (terms : list labels) (out : labels).

Lemma find_contraction_loop positions terms i ic ir rem :
  foldl (find_contraction_body positions) (ic, ir, rem)
        (zip (seq i (length terms)) terms)
  = (ic ∪ ⋃ pick_from (fun i => bool_decide (i ∈ positions)) i terms,
     ir ∪ ⋃ pick_from (fun i => negb (bool_decide (i ∈ positions))) i terms,
     rem ++ pick_from (fun i => negb (bool_decide (i ∈ positions))) i terms).
Proof.
  revert i ic ir rem. induction terms as [|t terms IH]; intros i ic ir rem.
  - simpl. rewrite app_nil_r.
    apply (f_equal2 pair); [apply (f_equal2 pair)|]; [set_solver..|done].
  - cbn [length seq zip zip_with foldl pick_from find_contraction_body].
    case_bool_decide; cbn [negb]; rewrite IH; simpl.
    + apply (f_equal2 pair); [apply (f_equal2 pair)|]; [set_solver..|done].
    + rewrite <-app_assoc.
      apply (f_equal2 pair); [apply (f_equal2 pair)|]; [set_solver..|done].
Qed.

Lemma find_contraction_plan positions terms out :
  _find_contraction positions terms out = plan_contraction positions terms out.
Proof.
  unfold _find_contraction, enumerate. rewrite find_contraction_loop.
  unfold plan_contraction, remaining_terms, eliminated_labels, result_labels,
    touched_labels, selected_terms, untouched_terms. simpl.
  assert (∀ X : labels, ∅ ∪ X = X) as -> by set_solver.
  assert (∀ X Y : labels, X ∪ Y = Y ∪ X) as Hc by set_solver.
  by rewrite (Hc out).
Qed.
End find_contraction.

(** * Sizes, pairs and sequence order *)

Lemma foldlM_app {A B} (f : A → B → result A) a l1 l2 :
  foldlM f a (l1 ++ l2) = foldlM f a l1 ≫= fun a' => foldlM f a' l2.
Proof.
  revert a. induction l1 as [|x l1 IH]; intros a; simpl; [done|].
  destruct (f a x) as [a'|e]; simpl; [apply IH|done].
Qed.

Lemma bind_ok {A B} (x : A) (k : A → result B) : Ok x ≫= k = k x.
Proof. done. Qed.

Lemma bind_raise {A B} e (k : A → result B) : Raise e ≫= k = Raise e.
Proof. done. Qed.

Section sizes.
Implicit Types (d : dims) (s : labels).

Lemma compute_size_fold d (l : str) (acc : Z) :
  (∀ c, c ∈ l → c ∈ dom d) →
  foldlM (fun ret i => v ← getitem d i; Ok (ret * v)) acc l
  = Ok (acc * list_prod (dim_of d <$> l)).
Proof.
  revert acc. induction l as [|c l IH]; intros acc Hl; simpl.
  - f_equal. lia.
  - assert (c ∈ dom d) as [v Hv]%elem_of_dom by (apply Hl; left).
    assert (getitem d c = Ok v) as -> by (unfold getitem; by rewrite Hv).
    assert (dim_of d c = v) as -> by (unfold dim_of; by rewrite Hv).
    rewrite !bind_ok, IH by (intros; apply Hl; by right). f_equal.
    symmetry. apply Z.mul_assoc.
Qed.

Lemma compute_size_list d (l : str) :
  (∀ c, c ∈ l → c ∈ dom d) →
  _compute_size l d = Ok (list_prod (dim_of d <$> l)).
Proof.
  intros Hl. unfold _compute_size. rewrite compute_size_fold by done.
  f_equal. lia.
Qed.

Lemma compute_size_missing d (l : str) c :
  c ∈ l → c ∉ dom d → ∃ c', _compute_size l d = Raise (KeyError c').
Proof.
  unfold _compute_size. generalize 1. induction l as [|x l IH]; intros acc Hc Hd.
  - by apply elem_of_nil in Hc.
  - cbn [foldlM]. destruct (d !! x) as [v|] eqn:Hx.
    + assert (getitem d x = Ok v) as -> by (unfold getitem; by rewrite Hx).
      rewrite !bind_ok. apply IH; [|done].
      apply elem_of_cons in Hc as [->|]; [|done].
      apply not_elem_of_dom in Hd. congruence.
    + assert (getitem d x = Raise (KeyError x)) as ->
        by (unfold getitem; by rewrite Hx).
      by exists x.
Qed.

Lemma compute_size_set d s :
  s ⊆ dom d → _compute_size (elements s) d = Ok (size_of s d).
Proof.
  intros Hs. apply compute_size_list. intros c Hc%elem_of_elements.
  by apply Hs.
Qed.

Lemma list_prod_perm (l k : list Z) : l ≡ₚ k → list_prod l = list_prod k.
Proof. induction 1; simpl; [done|congruence|ring|congruence]. Qed.

(** The order in which a set of labels is iterated does not change its
    size. *)
Lemma compute_size_perm d (l k : str) :
  (∀ c, c ∈ l → c ∈ dom d) → l ≡ₚ k → _compute_size l d = _compute_size k d.
Proof.
  intros Hl Hperm. rewrite (compute_size_list d l) by done.
  rewrite (compute_size_list d k) by (intros c Hc; apply Hl; by rewrite Hperm).
  f_equal. apply list_prod_perm. by apply fmap_Permutation.
Qed.

End sizes.

Section pairs.
Lemma elem_of_triu_indices n p :
  p ∈ triu_indices n ↔ ∃ i j, p = [i; j] ∧ (i < j < n)%nat.
Proof.
  unfold triu_indices. rewrite list_elem_of_bind. split.
  - intros (i & Hp & Hi). apply list_elem_of_fmap in Hp as (j & -> & Hj).
    apply elem_of_seq in Hi, Hj. exists i, j. split; [done|lia].
  - intros (i & j & -> & Hij). exists i. split.
    + apply list_elem_of_fmap. exists j. split; [done|].
      apply elem_of_seq. lia.
    + apply elem_of_seq. lia.
Qed.

Lemma triu_indices_two : triu_indices 2 = [[0; 1]]%nat.
Proof. reflexivity. Qed.

Lemma NoDup_triu_indices n : NoDup (triu_indices n).
Proof.
  unfold triu_indices. apply NoDup_bind.
  - intros i1 i2 p _ _ (j1 & -> & _)%list_elem_of_fmap
      (j2 & [= -> _] & _)%list_elem_of_fmap. done.
  - intros i _. apply NoDup_fmap_2; [|apply NoDup_seq].
    by intros j1 j2 [= ->].
  - apply NoDup_seq.
Qed.
End pairs.

(** Python's sequence order, for an item order that is a strict total order
    on the items that occur. *)
Section seq_order.
Context {A : Type} `{EqDecision A} (lt : A → A → bool).
Hypothesis lt_asym : ∀ x y, lt x y = true → lt y x = false.

Lemma py_seq_lt_asym l1 l2 :
  py_seq_lt lt l1 l2 = true → py_seq_lt lt l2 l1 = false.
Proof.
  revert l2. induction l1 as [|x l1 IH]; intros [|y l2]; simpl; try done.
  destruct (decide (x = y)) as [->|Hxy].
  - rewrite decide_True by done. apply IH.
  - rewrite decide_False by congruence. apply lt_asym.
Qed.

Lemma py_seq_lt_irrefl l : py_seq_lt lt l l = false.
Proof. induction l as [|x l IH]; simpl; [done|]. by rewrite decide_True. Qed.

Lemma py_seq_lt_ne l1 l2 : py_seq_lt lt l1 l2 = true → l1 ≠ l2.
Proof. intros H ->. by rewrite py_seq_lt_irrefl in H. Qed.

Lemma py_seq_lt_snoc l x y :
  py_seq_lt lt (l ++ [x]) (l ++ [y]) = (if decide (x = y) then false else lt x y).
Proof.
  induction l as [|z l IH]; simpl.
  - by destruct (decide (x = y)).
  - by rewrite decide_True.
Qed.

Lemma py_seq_lt_app l1 l2 k1 k2 :
  length l1 = length l2 → py_seq_lt lt l1 l2 = true →
  py_seq_lt lt (l1 ++ k1) (l2 ++ k2) = true.
Proof.
  revert l2. induction l1 as [|x l1 IH]; intros [|y l2]; simpl; try done.
  intros [= Hlen]. destruct (decide (x = y)); [by apply IH|done].
Qed.
End seq_order.

Lemma nat_ltb_asym (x y : nat) : (x <? y)%nat = true → (y <? x)%nat = false.
Proof. rewrite Nat.ltb_lt, Nat.ltb_ge. lia. Qed.

Lemma tuple_lt_asym p q : tuple_lt p q = true → tuple_lt q p = false.
Proof. apply py_seq_lt_asym, nat_ltb_asym. Qed.

Lemma positions_lt_asym p q : positions_lt p q = true → positions_lt q p = false.
Proof. apply py_seq_lt_asym, tuple_lt_asym. Qed.

Section sorted_lists.
Context {A B : Type}.

Lemma StronglySorted_bind (R : relation A) (S : relation B)
    (f : A → list B) (l : list A) :
  StronglySorted R l →
  (∀ x, x ∈ l → StronglySorted S (f x)) →
  (∀ x y a b, R x y → x ∈ l → y ∈ l → a ∈ f x → b ∈ f y → S a b) →
  StronglySorted S (l ≫= f).
Proof.
  induction 1 as [|x l Hl IH Hx]; intros Hf HRS; [constructor|].
  change ((x :: l) ≫= f) with (f x ++ (l ≫= f)).
  apply StronglySorted_app_2.
  - intros a b Ha (y & Hb & Hy)%list_elem_of_bind.
    apply (HRS x y); [|left|by right|done..].
    rewrite Forall_forall in Hx. by apply Hx.
  - apply Hf. left.
  - apply IH.
    + intros y Hy. apply Hf. by right.
    + intros y z a b ? ? ?. apply HRS; by try right.
Qed.

Lemma StronglySorted_omap (R : relation A) (S : relation B)
    (f : A → option B) (l : list A) :
  StronglySorted R l →
  (∀ x y a b, R x y → f x = Some a → f y = Some b → S a b) →
  StronglySorted S (omap f l).
Proof.
  induction 1 as [|x l Hl IH Hx]; intros HRS; [constructor|].
  simpl. destruct (f x) as [a|] eqn:Ha; [|by apply IH].
  constructor; [by apply IH|]. apply Forall_forall.
  intros b (y & Hy & Hb)%list_elem_of_omap.
  rewrite Forall_forall in Hx. eauto.
Qed.
End sorted_lists.

Lemma StronglySorted_seq m n : StronglySorted lt (seq m n).
Proof.
  revert m. induction n as [|n IH]; intros m; simpl; constructor; [apply IH|].
  apply Forall_forall. intros j Hj%elem_of_seq. lia.
Qed.

Lemma triu_indices_sorted n :
  StronglySorted (fun p q => tuple_lt p q = true) (triu_indices n).
Proof.
  unfold triu_indices. apply (StronglySorted_bind lt); [apply StronglySorted_seq|..].
  - intros i _. apply (StronglySorted_fmap _ lt); [|apply StronglySorted_seq].
    intros j1 j2 Hj. unfold tuple_lt. simpl. rewrite decide_True by done.
    rewrite decide_False by lia. apply Nat.ltb_lt. lia.
  - intros i1 i2 p q Hi _ _ (j1 & -> & _)%list_elem_of_fmap
      (j2 & -> & _)%list_elem_of_fmap.
    unfold tuple_lt. simpl. rewrite decide_False by lia. apply Nat.ltb_lt. lia.
Qed.

(** * Operand terms under a contraction step *)

Section terms.
Implicit Types (positions : list nat) (terms : list labels) (out : labels)
  (d : dims).

Lemma length_pick_from keep i terms :
  length (pick_from keep i terms)
  = length (filter (fun j => keep j = true) (seq i (length terms))).
Proof.
  revert i. induction terms as [|t terms IH]; intros i; [done|].
  cbn [pick_from length seq]. rewrite filter_cons.
  destruct (keep i) eqn:Hk.
  - rewrite decide_True by done. simpl. by rewrite IH.
  - rewrite decide_False by congruence. by rewrite IH.
Qed.

Lemma elem_of_pick_from keep i terms t :
  t ∈ pick_from keep i terms → t ∈ terms.
Proof.
  revert i. induction terms as [|t' terms IH]; intros i; simpl; [done|].
  destruct (keep i); rewrite ?elem_of_cons; naive_solver.
Qed.

Lemma pick_from_ext keep1 keep2 i terms :
  (∀ j, keep1 j = keep2 j) →
  pick_from keep1 i terms = pick_from keep2 i terms.
Proof.
  intros Hk. revert i. induction terms as [|t terms IH]; intros i; [done|].
  simpl. by rewrite Hk, IH.
Qed.

(** Only the set of selected positions matters, not the order in which the
    step lists them. *)
Lemma plan_contraction_ext positions positions' terms out :
  (∀ i, i ∈ positions ↔ i ∈ positions') →
  plan_contraction positions terms out = plan_contraction positions' terms out.
Proof.
  intros Hp.
  assert (selected_terms positions terms = selected_terms positions' terms)
    as Hsel.
  { apply pick_from_ext. intros j. apply bool_decide_ext, Hp. }
  assert (untouched_terms positions terms = untouched_terms positions' terms)
    as Hunt.
  { apply pick_from_ext. intros j. f_equal. apply bool_decide_ext, Hp. }
  unfold plan_contraction, remaining_terms, eliminated_labels, result_labels,
    touched_labels. by rewrite Hsel, Hunt.
Qed.

Lemma pick_from_all keep i terms :
  (∀ j, (i ≤ j < i + length terms)%nat → keep j = true) →
  pick_from keep i terms = terms.
Proof.
  revert i. induction terms as [|t terms IH]; intros i Hk; [done|].
  simpl in *. rewrite (Hk i) by lia.
  rewrite (IH (S i)) by (intros; apply Hk; lia). done.
Qed.

Lemma pick_from_none keep i terms :
  (∀ j, (i ≤ j < i + length terms)%nat → keep j = false) →
  pick_from keep i terms = [].
Proof.
  revert i. induction terms as [|t terms IH]; intros i Hk; [done|].
  simpl in *. rewrite (Hk i) by lia.
  rewrite (IH (S i)) by (intros; apply Hk; lia). done.
Qed.

(** Selecting by position: [pick_from] keeps exactly the terms whose index
    passes the test. *)
Lemma elem_of_pick_from_lookup keep i terms t :
  t ∈ pick_from keep i terms ↔
  ∃ j, terms !! j = Some t ∧ keep (i + j)%nat = true.
Proof.
  revert i. induction terms as [|t' terms IH]; intros i.
  - simpl. split; [by intros ?%elem_of_nil|by intros (j & ? & _)].
  - cbn [pick_from]. destruct (keep i) eqn:Hk.
    + rewrite elem_of_cons, IH. split.
      * intros [->|(j & Hj & Hkj)].
        -- exists 0%nat. by rewrite Nat.add_0_r.
        -- exists (S j). by rewrite Nat.add_succ_r.
      * intros ([|j] & Hj & Hkj).
        -- left. by injection Hj.
        -- right. exists j. by rewrite Nat.add_succ_r in Hkj.
    + rewrite IH. split.
      * intros (j & Hj & Hkj). exists (S j). by rewrite Nat.add_succ_r.
      * intros ([|j] & Hj & Hkj).
        -- rewrite Nat.add_0_r in Hkj. congruence.
        -- exists j. by rewrite Nat.add_succ_r in Hkj.
Qed.

Lemma length_selected_untouched positions terms :
  (length (selected_terms positions terms)
   + length (untouched_terms positions terms) = length terms)%nat.
Proof.
  unfold selected_terms, untouched_terms. generalize 0%nat.
  induction terms as [|t terms IH]; intros i; [done|].
  cbn [pick_from]. specialize (IH (S i)).
  destruct (bool_decide (i ∈ positions)); simpl; lia.
Qed.

Lemma length_selected positions terms :
  NoDup positions → (∀ p, p ∈ positions → (p < length terms)%nat) →
  length (selected_terms positions terms) = length positions.
Proof.
  intros Hnd Hlt. unfold selected_terms. rewrite length_pick_from.
  apply Permutation_length, NoDup_Permutation;
    [apply NoDup_filter, NoDup_seq|done|].
  intros p. rewrite list_elem_of_filter, elem_of_seq, bool_decide_eq_true.
  split; [naive_solver|]. intros Hp. split; [done|].
  specialize (Hlt p Hp). lia.
Qed.

Lemma length_untouched positions terms :
  NoDup positions → (∀ p, p ∈ positions → (p < length terms)%nat) →
  length (untouched_terms positions terms)
  = (length terms - length positions)%nat.
Proof.
  intros Hnd Hlt. pose proof (length_selected_untouched positions terms).
  rewrite length_selected in * by done. lia.
Qed.

Lemma length_remaining_terms positions terms out :
  NoDup positions → (∀ p, p ∈ positions → (p < length terms)%nat) →
  length (remaining_terms positions terms out)
  = S (length terms - length positions).
Proof.
  intros. unfold remaining_terms.
  rewrite length_app, length_untouched by done. simpl. lia.
Qed.

Lemma length_remaining_pair p terms out :
  p ∈ unordered_pairs (length terms) →
  length (remaining_terms p terms out) = (length terms - 1)%nat.
Proof.
  intros (i & j & -> & Hij)%elem_of_triu_indices.
  rewrite length_remaining_terms.
  - simpl. lia.
  - apply NoDup_cons. split; [|apply NoDup_singleton].
    rewrite list_elem_of_singleton. lia.
  - intros p. rewrite !elem_of_cons, elem_of_nil. lia.
Qed.

Lemma untouched_full terms :
  untouched_terms (full_step (length terms)) terms = [].
Proof.
  apply pick_from_none. intros j Hj. apply negb_false_iff, bool_decide_eq_true.
  apply elem_of_seq. lia.
Qed.

Lemma selected_full terms :
  selected_terms (full_step (length terms)) terms = terms.
Proof.
  apply pick_from_all. intros j Hj. apply bool_decide_eq_true.
  apply elem_of_seq. lia.
Qed.

Lemma touched_subseteq positions terms :
  touched_labels positions terms ⊆ ⋃ terms.
Proof.
  intros c (t & Ht & Hc)%elem_of_union_list. apply elem_of_union_list.
  exists t. split; [|done]. by apply elem_of_pick_from in Ht.
Qed.

Lemma result_subseteq_touched positions terms out :
  result_labels positions terms out ⊆ touched_labels positions terms.
Proof. unfold result_labels. set_solver. Qed.

Lemma eliminated_subseteq_touched positions terms out :
  eliminated_labels positions terms out ⊆ touched_labels positions terms.
Proof. unfold eliminated_labels. set_solver. Qed.

Lemma dims_cover_union d terms : dims_cover d terms → ⋃ terms ⊆ dom d.
Proof.
  intros Hd c (t & Ht & Hc)%elem_of_union_list. by apply (Hd t).
Qed.

Lemma dims_cover_touched d positions terms :
  dims_cover d terms → touched_labels positions terms ⊆ dom d.
Proof.
  intros Hd. etrans; [apply touched_subseteq|by apply dims_cover_union].
Qed.

Lemma dims_cover_result d positions terms out :
  dims_cover d terms → result_labels positions terms out ⊆ dom d.
Proof.
  intros Hd. transitivity (touched_labels positions terms);
    [apply result_subseteq_touched|by apply dims_cover_touched].
Qed.

Lemma dims_cover_eliminated d positions terms out :
  dims_cover d terms → eliminated_labels positions terms out ⊆ dom d.
Proof.
  intros Hd. transitivity (touched_labels positions terms);
    [apply eliminated_subseteq_touched|by apply dims_cover_touched].
Qed.

Lemma dims_cover_remaining d positions terms out :
  dims_cover d terms → dims_cover d (remaining_terms positions terms out).
Proof.
  intros Hd t. unfold remaining_terms.
  rewrite elem_of_app, list_elem_of_singleton. intros [Ht| ->].
  - apply Hd. by apply elem_of_pick_from in Ht.
  - by apply dims_cover_result.
Qed.

End terms.

(** * The exhaustive strategy *)

Section optimal_rounds.
Context (out : labels) (d : dims) (memory : Z).
Implicit Types (c curr : cand) (new current frontier : list cand)
  (terms : list labels).

Lemma size_pos_non_empty (X : labels) :
  bool_decide (0 < size X)%nat = negb (bool_decide (X = ∅)).
Proof.
  destruct (decide (X = ∅)) as [->|HX].
  - rewrite size_empty, (bool_decide_true (_ = _)) by done.
    apply bool_decide_false. lia.
  - rewrite (bool_decide_false (X = ∅)) by done. apply bool_decide_true.
    apply Nat.neq_0_lt_0. rewrite size_non_empty_iff. by intros ?%leibniz_equiv.
Qed.

Lemma path_optimal_con_extend curr new con :
  dims_cover d (cand_remaining curr) →
  path_optimal_con out d memory curr new con
  = Ok (new ++ option_list (extend_candidate out d memory curr con)).
Proof.
  destruct curr as [[cost positions] remaining]. intros Hd.
  unfold path_optimal_con, extend_candidate, cand_remaining, cand_cost,
    cand_positions in *. simpl in Hd |- *.
  rewrite find_contraction_plan. unfold plan_contraction.
  rewrite (compute_size_set d (result_labels _ _ _)), bind_ok
    by by apply dims_cover_result.
  case_bool_decide; [simpl; by rewrite app_nil_r|].
  rewrite (compute_size_set d (touched_labels _ _)), bind_ok
    by by apply dims_cover_touched.
  rewrite size_pos_non_empty. unfold step_cost. simpl.
  rewrite (Z.add_comm _ cost). by case_bool_decide.
Qed.

Lemma path_optimal_inner curr new comb :
  dims_cover d (cand_remaining curr) →
  foldlM (path_optimal_con out d memory curr) new comb
  = Ok (new ++ omap (extend_candidate out d memory curr) comb).
Proof.
  intros Hd. revert new. induction comb as [|con comb IH]; intros new.
  - by rewrite app_nil_r.
  - cbn [foldlM]. rewrite path_optimal_con_extend, bind_ok, IH by done.
    rewrite <-app_assoc. do 2 f_equal.
    simpl. by destruct (extend_candidate _ _ _ _ _).
Qed.

Lemma path_optimal_outer comb current new :
  (∀ c, c ∈ current → dims_cover d (cand_remaining c)) →
  foldlM (fun new curr =>
            foldlM (path_optimal_con out d memory curr) new comb) new current
  = Ok (new ++ (current ≫= fun c =>
                  omap (extend_candidate out d memory c) comb)).
Proof.
  revert new. induction current as [|c current IH]; intros new Hd.
  - by rewrite app_nil_r.
  - cbn [foldlM]. rewrite path_optimal_inner, bind_ok by (apply Hd; left).
    rewrite IH by (intros; apply Hd; by right).
    by rewrite <-app_assoc.
Qed.

(** What the frontier holds after [rounds] rounds. *)
Lemma frontier_S terms rounds :
  exhaustive_frontier out d memory terms (S rounds)
  = exhaustive_round out d memory
      (exhaustive_frontier out d memory terms rounds).
Proof. done. Qed.

Lemma elem_of_round frontier c' :
  c' ∈ exhaustive_round out d memory frontier ↔
  ∃ c p, c ∈ frontier ∧ p ∈ unordered_pairs (length (cand_remaining c))
         ∧ extend_candidate out d memory c p = Some c'.
Proof.
  unfold exhaustive_round. rewrite list_elem_of_bind. split.
  - intros (c & (p & ? & ?)%list_elem_of_omap & ?). eauto.
  - intros (c & p & ? & ? & ?). exists c. split; [|done].
    apply list_elem_of_omap. eauto.
Qed.

Lemma extend_candidate_Some c p c' :
  extend_candidate out d memory c p = Some c' ↔
  size_of (result_labels p (cand_remaining c) out) d ≤ memory
  ∧ c' = (cand_cost c + step_cost p (cand_remaining c) out d,
          cand_positions c ++ [p],
          remaining_terms p (cand_remaining c) out).
Proof.
  unfold extend_candidate. case_bool_decide; split; try naive_solver lia.
Qed.

Lemma frontier_invariant terms rounds c :
  dims_cover d terms →
  c ∈ exhaustive_frontier out d memory terms rounds →
  dims_cover d (cand_remaining c)
  ∧ length (cand_remaining c) = (length terms - rounds)%nat
  ∧ length (cand_positions c) = rounds.
Proof.
  intros Hd. revert c. induction rounds as [|rounds IH]; intros c.
  - intros ->%list_elem_of_singleton. simpl. split_and!; [done|lia|done].
  - rewrite frontier_S. intros (c0 & p & Hc0 & Hp & Hc)%elem_of_round.
    apply extend_candidate_Some in Hc as [_ ->].
    destruct (IH _ Hc0) as (Hcov & Hlen & Hpos).
    unfold cand_remaining, cand_positions in *. simpl. split_and!.
    + by apply dims_cover_remaining.
    + rewrite length_remaining_pair by done. lia.
    + rewrite length_app. simpl. lia.
Qed.

Lemma path_optimal_iteration_round terms rounds :
  dims_cover d terms →
  path_optimal_iteration out d memory (length terms)
    (exhaustive_frontier out d memory terms rounds) rounds
  = Ok (exhaustive_frontier out d memory terms (S rounds)).
Proof.
  intros Hd. unfold path_optimal_iteration.
  rewrite path_optimal_outer by (intros c Hc; by eapply frontier_invariant).
  simpl. f_equal. unfold exhaustive_round. apply Forall_bind_ext, Forall_forall.
  intros c Hc.
  apply (frontier_invariant _ _ _ Hd) in Hc as (_ & -> & _). done.
Qed.
End optimal_rounds.

Section optimal_loop.
Context (out : labels) (d : dims) (memory : Z).

Lemma path_optimal_loop_rounds terms rounds :
  dims_cover d terms →
  foldlM (fun (st : list cand * option (list cand)) iteration =>
            new ← path_optimal_iteration out d memory (length terms)
                    st.1 iteration;
            Ok (new, Some new))
         ([(0, [], terms)], None) (seq 0 rounds)
  = Ok (exhaustive_frontier out d memory terms rounds,
        match rounds with
        | O => None
        | S _ => Some (exhaustive_frontier out d memory terms rounds)
        end).
Proof.
  intros Hd. induction rounds as [|rounds IH]; [done|].
  rewrite seq_S, foldlM_app, IH, bind_ok. cbn [foldlM fst plus].
  by rewrite path_optimal_iteration_round, !bind_ok.
Qed.

Lemma path_optimal_loop_frontier terms :
  dims_cover d terms →
  path_optimal_loop out d memory (length terms) terms
  = Ok (exhaustive_frontier out d memory terms (length terms - 1),
        match (length terms - 1)%nat with
        | O => None
        | S _ =>
            Some (exhaustive_frontier out d memory terms (length terms - 1))
        end).
Proof. apply path_optimal_loop_rounds. Qed.
End optimal_loop.

Lemma first_item_head {A} (l : list A) x : head l = Some x → first_item l = Ok x.
Proof. destruct l; [done|]. by intros [= ->]. Qed.

(** The head of a sorted list is found by one scan that replaces the best
    item so far only by a strictly smaller one. *)
Section sort_head.
Context {A : Type} (lt : A → A → bool).

Lemma head_py_insert x l : head (py_insert lt x l) = scan_min lt (head l) x.
Proof. destruct l as [|y l]; simpl; [done|]. by destruct (lt x y). Qed.

Lemma head_py_sort_acc acc l :
  head (foldl (fun acc x => py_insert lt x acc) acc l)
  = foldl (scan_min lt) (head acc) l.
Proof.
  revert acc. induction l as [|x l IH]; intros acc; simpl; [done|].
  by rewrite IH, head_py_insert.
Qed.

Lemma head_py_sort l : head (py_sort lt l) = foldl (scan_min lt) None l.
Proof. apply head_py_sort_acc. Qed.

Lemma py_insert_perm x l : py_insert lt x l ≡ₚ x :: l.
Proof.
  induction l as [|y l IH]; simpl; [done|]. destruct (lt x y); [done|].
  rewrite IH. apply Permutation_swap.
Qed.

Lemma py_sort_perm l : py_sort lt l ≡ₚ l.
Proof.
  unfold py_sort. rewrite <-(app_nil_r l) at 2. generalize (@nil A).
  induction l as [|x l IH]; intros acc; simpl; [done|].
  rewrite IH, py_insert_perm. by rewrite Permutation_middle.
Qed.
End sort_head.

Section scan.
Context {A : Type}.

Lemma scan_min_agree (lt1 lt2 : A → A → bool) (R : relation A) l best :
  StronglySorted R l →
  (∀ b, best = Some b → Forall (R b) l) →
  (∀ b x, R b x → lt1 x b = lt2 x b) →
  foldl (scan_min lt1) best l = foldl (scan_min lt2) best l.
Proof.
  intros Hl Hb Hlt. revert best Hb.
  induction Hl as [|x l Hl IH Hx]; intros best Hb; [done|].
  cbn [foldl].
  assert (scan_min lt1 best x = scan_min lt2 best x) as ->.
  { destruct best as [b|]; simpl; [|done]. rewrite Hlt; [done|].
    specialize (Hb b eq_refl). by apply Forall_cons in Hb as [? _]. }
  apply IH. intros b'. destruct best as [b|]; simpl.
  - specialize (Hb b eq_refl). apply Forall_cons in Hb as [_ Hb].
    destruct (lt2 x b); by intros [= <-].
  - by intros [= <-].
Qed.

Lemma foldl_scan_min_snoc (lt : A → A → bool) best l x :
  foldl (scan_min lt) best (l ++ [x])
  = scan_min lt (foldl (scan_min lt) best l) x.
Proof. by rewrite foldl_app. Qed.
End scan.

(** What "the first candidate of lowest cost" means. *)
Section first_min.
Implicit Types (l : list cand) (c : cand).

Lemma first_min_cost_snoc l x :
  first_min_cost (l ++ [x]) = scan_min cheaper (first_min_cost l) x.
Proof. apply foldl_scan_min_snoc. Qed.

Lemma first_min_cost_None l : first_min_cost l = None ↔ l = [].
Proof.
  split; [|by intros ->]. induction l as [|x l _] using rev_ind; [done|].
  rewrite first_min_cost_snoc.
  destruct (first_min_cost l) as [b|]; simpl; [|done].
  by destruct (cheaper x b).
Qed.

Lemma first_min_cost_Some l c :
  first_min_cost l = Some c →
  ∃ i, l !! i = Some c
       ∧ (∀ j c', l !! j = Some c' → cand_cost c ≤ cand_cost c')
       ∧ (∀ j c', (j < i)%nat → l !! j = Some c' →
                  cand_cost c < cand_cost c').
Proof.
  revert c. induction l as [|x l IH] using rev_ind; intros c; [done|].
  rewrite first_min_cost_snoc.
  destruct (first_min_cost l) as [b|] eqn:Hb; simpl.
  - destruct (IH b eq_refl) as (i & Hi & Hle & Hlt).
    unfold cheaper. destruct (Z.ltb_spec (cand_cost x) (cand_cost b));
      intros [= <-].
    + exists (length l). split_and!.
      * by rewrite lookup_app_r, Nat.sub_diag by lia.
      * intros j c' [Hj|[_ Hj]]%lookup_app_Some.
        -- specialize (Hle j c' Hj). lia.
        -- destruct (j - length l)%nat; naive_solver lia.
      * intros j c' Hj Hc'. rewrite lookup_app_l in Hc' by done.
        specialize (Hle j c' Hc'). lia.
    + exists i. split_and!.
      * by apply lookup_app_l_Some.
      * intros j c' [Hj|[_ Hj]]%lookup_app_Some; [by eapply Hle|].
        destruct (j - length l)%nat; naive_solver lia.
      * intros j c' Hj Hc'. apply (Hlt j); [done|].
        apply lookup_lt_Some in Hi. by rewrite lookup_app_l in Hc' by lia.
  - apply first_min_cost_None in Hb as ->. intros [= <-].
    exists 0%nat. split_and!; [done| |intros; lia].
    intros [|j] c'; naive_solver lia.
Qed.
End first_min.

(** The frontier is listed in the order Python gives to position lists, so
    sorting on [(cost, positions, remaining)] never looks beyond the
    positions and breaks cost ties by enumeration order. *)
Section optimal_order.
Context (out : labels) (d : dims) (memory : Z).

Lemma frontier_sorted terms rounds :
  dims_cover d terms →
  StronglySorted listed_before (exhaustive_frontier out d memory terms rounds).
Proof.
  intros Hd. induction rounds as [|rounds IH].
  { repeat constructor. }
  rewrite frontier_S. unfold exhaustive_round.
  apply (StronglySorted_bind listed_before); [done|..].
  - intros c _.
    apply (StronglySorted_omap (fun p q => tuple_lt p q = true));
      [apply triu_indices_sorted|].
    intros p q a b Hpq [_ ->]%extend_candidate_Some
      [_ ->]%extend_candidate_Some.
    unfold listed_before, cand_positions, positions_lt. simpl.
    rewrite py_seq_lt_snoc, decide_False; [done|].
    by eapply py_seq_lt_ne.
  - intros c1 c2 a b Hc Hc1 Hc2 (p & _ & [_ ->]%extend_candidate_Some)%list_elem_of_omap
      (q & _ & [_ ->]%extend_candidate_Some)%list_elem_of_omap.
    apply (frontier_invariant _ _ _ _ _ _ Hd) in Hc1 as (_ & _ & Hl1).
    apply (frontier_invariant _ _ _ _ _ _ Hd) in Hc2 as (_ & _ & Hl2).
    unfold listed_before, cand_positions, positions_lt in *. simpl.
    apply py_seq_lt_app; [congruence|done].
Qed.

Lemma cand_lt_cheaper (b x : cand) :
  listed_before b x → cand_lt x b = cheaper x b.
Proof.
  unfold listed_before, cand_lt, cheaper. intros Hbx.
  case_bool_decide as Hc; [done|].
  rewrite Hc, Z.ltb_irrefl.
  rewrite bool_decide_true.
  - by apply positions_lt_asym.
  - apply not_eq_sym. by eapply py_seq_lt_ne.
Qed.

Lemma sorted_head_first_min terms rounds :
  dims_cover d terms →
  head (py_sort cand_lt (exhaustive_frontier out d memory terms rounds))
  = first_min_cost (exhaustive_frontier out d memory terms rounds).
Proof.
  intros Hd. rewrite head_py_sort. unfold first_min_cost.
  apply (scan_min_agree _ _ listed_before);
    [by apply frontier_sorted|done|apply cand_lt_cheaper].
Qed.
End optimal_order.

Lemma path_optimal_plan (inp : list str) (out : labels) (d : dims)
    (memory : Z) :
  (1 < length inp)%nat →
  dims_cover d (set_of <$> inp) →
  _path_optimal inp out d memory
  = Ok (exhaustive_plan (set_of <$> inp) out d memory).
Proof.
  intros Hn Hd. unfold _path_optimal, exhaustive_plan, exhaustive_selected.
  rewrite <-(length_fmap set_of inp) in *.
  rewrite path_optimal_loop_frontier, bind_ok by done. cbn [snd].
  destruct (length (set_of <$> inp) - 1)%nat as [|r] eqn:Hr; [lia|].
  rewrite <-sorted_head_first_min by done.
  case_bool_decide as Hnew.
  - apply length_zero_iff_nil in Hnew. by rewrite Hnew.
  - destruct (head (py_sort cand_lt _)) as [best|] eqn:Hbest.
    + apply first_item_head in Hbest. by rewrite Hbest.
    + apply head_None in Hbest. apply (f_equal length) in Hbest.
      rewrite (Permutation_length (py_sort_perm _ _)) in Hbest. done.
Qed.

(** The frontier holds exactly the pairwise plans that stay within the
    ceiling, each with its cost and with the operand terms it leaves. *)
Section optimal_complete.
Context (out : labels) (d : dims) (memory : Z).
Implicit Types (terms : list labels) (plan : list (list nat)).

Lemma replay_snoc terms plan p :
  replay out terms (plan ++ [p])
  = remaining_terms p (replay out terms plan) out.
Proof.
  revert terms. induction plan as [|q plan IH]; intros terms; [done|].
  simpl. apply IH.
Qed.

Lemma plan_cost_snoc terms plan p :
  plan_cost out d terms (plan ++ [p])
  = plan_cost out d terms plan + step_cost p (replay out terms plan) out d.
Proof.
  revert terms. induction plan as [|q plan IH]; intros terms; simpl; [lia|].
  rewrite IH. lia.
Qed.

Lemma pairwise_plan_snoc k plan p :
  pairwise_plan k (plan ++ [p]) ↔
  pairwise_plan k plan ∧ p ∈ unordered_pairs (k - length plan).
Proof.
  revert k. induction plan as [|q plan IH]; intros k; simpl.
  - rewrite Nat.sub_0_r. naive_solver.
  - rewrite IH. replace (k - 1 - length plan)%nat
      with (k - S (length plan))%nat by lia. naive_solver.
Qed.

Lemma within_ceiling_snoc terms plan p :
  within_ceiling out d memory terms (plan ++ [p]) ↔
  within_ceiling out d memory terms plan
  ∧ size_of (result_labels p (replay out terms plan) out) d ≤ memory.
Proof.
  revert terms. induction plan as [|q plan IH]; intros terms; simpl.
  - naive_solver.
  - rewrite IH. naive_solver.
Qed.

Lemma length_replay terms plan :
  pairwise_plan (length terms) plan →
  length (replay out terms plan) = (length terms - length plan)%nat.
Proof.
  revert terms. induction plan as [|p plan IH]; intros terms; simpl.
  - lia.
  - intros [Hp Hplan]. rewrite <-(length_remaining_pair p terms out) in Hplan
      by done. rewrite IH by done.
    rewrite length_remaining_pair by done. lia.
Qed.

Lemma elem_of_frontier terms rounds c :
  c ∈ exhaustive_frontier out d memory terms rounds ↔
  length (cand_positions c) = rounds
  ∧ pairwise_plan (length terms) (cand_positions c)
  ∧ within_ceiling out d memory terms (cand_positions c)
  ∧ cand_cost c = plan_cost out d terms (cand_positions c)
  ∧ cand_remaining c = replay out terms (cand_positions c).
Proof.
  revert c. induction rounds as [|rounds IH]; intros c.
  - simpl. rewrite list_elem_of_singleton. destruct c as [[cost plan] rem].
    unfold cand_positions, cand_cost, cand_remaining. simpl. split.
    + by intros [= -> -> ->].
    + intros (->%length_zero_iff_nil & _ & _ & -> & ->). done.
  - rewrite frontier_S, elem_of_round. split.
    + intros (c0 & p & (Hlen & Hpw & Hwc & Hcost & Hrem)%IH & Hp
              & [Hsz ->]%extend_candidate_Some).
      unfold cand_positions, cand_cost, cand_remaining in *. simpl.
      rewrite length_app, pairwise_plan_snoc, within_ceiling_snoc,
        plan_cost_snoc, replay_snoc, <-Hcost, <-Hrem.
      split_and!; try done; [simpl; lia|].
      rewrite Hrem, length_replay in Hp by done. by rewrite Hlen in Hp |- *.
    + destruct c as [[cost plan] rem].
      unfold cand_positions, cand_cost, cand_remaining. simpl.
      intros (Hlen & Hpw & Hwc & -> & ->).
      destruct plan as [|p plan _] using rev_ind; [done|].
      rewrite length_app in Hlen. simpl in Hlen.
      apply pairwise_plan_snoc in Hpw as [Hpw Hp].
      apply within_ceiling_snoc in Hwc as [Hwc Hsz].
      exists (plan_cost out d terms plan, plan, replay out terms plan), p.
      split_and!.
      * apply IH. unfold cand_positions, cand_cost, cand_remaining. simpl.
        split_and!; try done. lia.
      * unfold cand_remaining. simpl. by rewrite length_replay.
      * apply extend_candidate_Some. split; [done|].
        unfold cand_positions, cand_cost, cand_remaining. simpl.
        by rewrite plan_cost_snoc, replay_snoc.
Qed.

(** The selected candidate is a feasible plan of globally lowest cost. *)
Lemma exhaustive_selected_optimal terms c :
  exhaustive_selected terms out d memory = Some c →
  feasible_plan out d memory terms (cand_positions c)
  ∧ cand_cost c = plan_cost out d terms (cand_positions c)
  ∧ ∀ plan, feasible_plan out d memory terms plan →
            plan_cost out d terms (cand_positions c)
            ≤ plan_cost out d terms plan.
Proof.
  unfold exhaustive_selected.
  intros (i & Hi & Hle & _)%first_min_cost_Some.
  apply list_elem_of_lookup_2, elem_of_frontier in Hi as Hc.
  destruct Hc as (Hlen & Hpw & Hwc & Hcost & Hrem).
  split_and!; [done..|]. intros plan (Hl & Hp & Hw). rewrite <-Hcost.
  assert ((plan_cost out d terms plan, plan, replay out terms plan)
          ∈ exhaustive_frontier out d memory terms (length terms - 1))
    as (j & Hj)%list_elem_of_lookup_1.
  { apply elem_of_frontier. done. }
  by apply Hle in Hj.
Qed.

(** The fallback is taken exactly when no feasible plan exists. *)
Lemma exhaustive_selected_None terms :
  exhaustive_selected terms out d memory = None ↔
  ∀ plan, ¬ feasible_plan out d memory terms plan.
Proof.
  unfold exhaustive_selected. rewrite first_min_cost_None. split.
  - intros Hnil plan (Hl & Hp & Hw).
    assert ((plan_cost out d terms plan, plan, replay out terms plan)
            ∈ exhaustive_frontier out d memory terms (length terms - 1))
      as Hin by by apply elem_of_frontier.
    rewrite Hnil in Hin. by apply elem_of_nil in Hin.
  - intros Hno. destruct (exhaustive_frontier _ _ _ _ _) as [|c l] eqn:E;
      [done|]. exfalso. apply (Hno (cand_positions c)).
    assert (c ∈ exhaustive_frontier out d memory terms (length terms - 1))
      as Hc by (rewrite E; left).
    apply elem_of_frontier in Hc. unfold feasible_plan. naive_solver.
Qed.
End optimal_complete.

(** * The memory ceiling and the cost of the selected plan *)

Section ceiling_monotone.
Context (out : labels) (d : dims).

Lemma within_ceiling_mono m1 m2 terms plan :
  m1 ≤ m2 →
  within_ceiling out d m1 terms plan → within_ceiling out d m2 terms plan.
Proof.
  intros Hm. revert terms. induction plan as [|p plan IH]; intros terms;
    simpl; [done|]. intros [? ?]. split; [lia|by apply IH].
Qed.

Lemma feasible_plan_mono m1 m2 terms plan :
  m1 ≤ m2 →
  feasible_plan out d m1 terms plan → feasible_plan out d m2 terms plan.
Proof.
  intros Hm (? & ? & ?). split_and!; [done..|].
  by eapply within_ceiling_mono.
Qed.

Lemma exhaustive_selected_mono m1 m2 terms c1 :
  m1 ≤ m2 →
  exhaustive_selected terms out d m1 = Some c1 →
  ∃ c2, exhaustive_selected terms out d m2 = Some c2
        ∧ cand_cost c2 ≤ cand_cost c1.
Proof.
  intros Hm (Hf1 & Hc1 & _)%exhaustive_selected_optimal.
  destruct (exhaustive_selected terms out d m2) as [c2|] eqn:H2.
  - exists c2. split; [done|].
    apply exhaustive_selected_optimal in H2 as (_ & Hc2 & Hmin).
    rewrite Hc1, Hc2. apply Hmin. by eapply feasible_plan_mono.
  - exfalso. rewrite exhaustive_selected_None in H2.
    apply (H2 (cand_positions c1)). by eapply feasible_plan_mono.
Qed.
End ceiling_monotone.

(** C7, as the code has it: for fixed operands, output labels and dimension
    table and ceilings [m1 <= m2], if some complete pairwise plan stays
    within [m1] (so that the exhaustive strategy does not fall back to the
    single full-width step), the plan selected under [m1] costs at least as
    much as the plan selected under [m2]. *)
Theorem path_optimal_ceiling_monotone (inp : list str) (out : labels)
    (d : dims) (m1 m2 : Z) (plan : list (list nat)) :
  (1 < length inp)%nat →
  dims_cover d (set_of <$> inp) →
  m1 ≤ m2 →
  feasible_plan out d m1 (set_of <$> inp) plan →
  ∃ p1 p2,
    _path_optimal inp out d m1 = Ok p1
    ∧ _path_optimal inp out d m2 = Ok p2
    ∧ plan_cost out d (set_of <$> inp) p2 ≤ plan_cost out d (set_of <$> inp) p1.
Proof.
  intros Hn Hd Hm Hplan. rewrite !path_optimal_plan by done.
  unfold exhaustive_plan.
  destruct (exhaustive_selected (set_of <$> inp) out d m1) as [c1|] eqn:H1.
  - destruct (exhaustive_selected_mono _ _ _ _ _ _ Hm H1) as (c2 & H2 & Hle).
    rewrite H2. exists (cand_positions c1), (cand_positions c2).
    split_and!; [done..|].
    apply exhaustive_selected_optimal in H1 as (_ & <- & _).
    by apply exhaustive_selected_optimal in H2 as (_ & <- & _).
  - rewrite exhaustive_selected_None in H1. by destruct (H1 plan).
Qed.

(** * The exhaustive strategy on concrete operands *)

Example path_optimal_chain :
  _path_optimal chain_inp chain_out chain_dims 24 = Ok [[1; 2]; [0; 1]]%nat.
Proof. vm_compute. reflexivity. Qed.

Lemma chain_feasible :
  feasible_plan chain_out chain_dims 8 (set_of <$> chain_inp)
    [[0; 1]; [0; 1]]%nat.
Proof.
  split_and!; [reflexivity|..]; simpl; split_and?; try done.
  all: by_compute.
Qed.

Lemma path_optimal_ceiling_monotone_witness :
  ∃ p1 p2,
    _path_optimal chain_inp chain_out chain_dims 8 = Ok p1
    ∧ _path_optimal chain_inp chain_out chain_dims 24 = Ok p2
    ∧ plan_cost chain_out chain_dims (set_of <$> chain_inp) p2
      ≤ plan_cost chain_out chain_dims (set_of <$> chain_inp) p1.
Proof.
  apply (path_optimal_ceiling_monotone chain_inp chain_out chain_dims 8 24
           [[0; 1]; [0; 1]]%nat);
    [simpl; lia|by_compute|lia|exact chain_feasible].
Defined.

(** Under ceiling 7 every pairwise plan for [a,b,c->abc] is pruned and the
    single full-width step costs 8; under ceiling 8 the selected pairwise
    plan costs 4 + 8 = 12. *)
Lemma path_optimal_ceiling_counterexample :
  _path_optimal outer_inp outer_out outer_dims 7 = Ok [[0; 1; 2]]%nat
  ∧ _path_optimal outer_inp outer_out outer_dims 8 = Ok [[0; 1]; [0; 1]]%nat
  ∧ 7 ≤ 8
  ∧ ¬ (plan_cost outer_out outer_dims (set_of <$> outer_inp)
         [[0; 1]; [0; 1]]%nat
       ≤ plan_cost outer_out outer_dims (set_of <$> outer_inp)
           [[0; 1; 2]]%nat).
Proof. vm_compute. split_and!; done. Qed.

Example outer_costs :
  plan_cost outer_out outer_dims (set_of <$> outer_inp) [[0; 1; 2]]%nat = 8
  ∧ plan_cost outer_out outer_dims (set_of <$> outer_inp)
      [[0; 1]; [0; 1]]%nat = 12.
Proof. vm_compute. done. Qed.

(** * The greedy strategy *)

Section scan_least.
Context {A : Type} (lt : A → A → bool) (le : relation A).
Hypothesis lt_le : ∀ x b, lt x b = true → le x b.
Hypothesis not_lt_le : ∀ x b, lt x b = false → le b x.
Hypothesis le_refl : ∀ x, le x x.
Hypothesis le_trans : ∀ x y z, le x y → le y z → le x z.

Lemma scan_min_least l best m :
  foldl (scan_min lt) best l = Some m →
  (best = Some m ∨ m ∈ l)
  ∧ (∀ b, best = Some b → le m b) ∧ (∀ x, x ∈ l → le m x).
Proof.
  revert best. induction l as [|x l IH]; intros best; simpl.
  - intros ->. split_and!; [by left|by intros ? [= <-]|by intros ? ?%elem_of_nil].
  - intros (Hin & Hb & Hl)%IH.
    assert (le m x ∧ ∀ b, best = Some b → le m b) as [Hx Hbest].
    { destruct best as [b|]; simpl in *.
      - destruct (lt x b) eqn:Hlt.
        + specialize (Hb x eq_refl). split; [done|]. intros ? [= <-]. eauto.
        + specialize (Hb b eq_refl). split; [|by intros ? [= <-]]. eauto.
      - split; [by apply Hb|done]. }
    split_and!; [|done|].
    + destruct Hin as [Hin|Hin]; [|right; by right].
      destruct best as [b|]; simpl in Hin.
      * destruct (lt x b); injection Hin as <-; [right; left|by left].
      * injection Hin as <-. right; left.
    + intros y [->|Hy]%elem_of_cons; [done|by apply Hl].
Qed.

End scan_least.

Section greedy_round.
Context (out : labels) (d : dims) (memory : Z).
Implicit Types (terms inp_set : list labels) (results : list entry).

Lemma path_opportunistic_con_entry inp_set results positions :
  dims_cover d inp_set →
  path_opportunistic_con out d memory inp_set results positions
  = Ok (results ++ option_list (greedy_entry out d memory inp_set positions)).
Proof.
  intros Hd. unfold path_opportunistic_con, greedy_entry, greedy_key.
  rewrite find_contraction_plan. unfold plan_contraction.
  rewrite (compute_size_set d (result_labels _ _ _)), bind_ok
    by by apply dims_cover_result.
  case_bool_decide; [simpl; by rewrite app_nil_r|].
  rewrite (compute_size_set d (eliminated_labels _ _ _)), bind_ok
    by by apply dims_cover_eliminated.
  rewrite (compute_size_set d (touched_labels _ _)), bind_ok
    by by apply dims_cover_touched.
  done.
Qed.

Lemma path_opportunistic_round inp_set results comb :
  dims_cover d inp_set →
  foldlM (path_opportunistic_con out d memory inp_set) results comb
  = Ok (results ++ omap (greedy_entry out d memory inp_set) comb).
Proof.
  intros Hd. revert results. induction comb as [|p comb IH]; intros results.
  - by rewrite app_nil_r.
  - cbn [foldlM]. rewrite path_opportunistic_con_entry, bind_ok, IH by done.
    rewrite <-app_assoc. do 2 f_equal.
    simpl. by destruct (greedy_entry _ _ _ _ _).
Qed.

Lemma greedy_entry_Some terms p e :
  greedy_entry out d memory terms p = Some e ↔
  size_of (result_labels p terms out) d ≤ memory
  ∧ e = (greedy_key out d terms p, p, remaining_terms p terms out).
Proof.
  unfold greedy_entry. case_bool_decide; split; try naive_solver lia.
Qed.

Lemma elem_of_greedy_survivors terms p :
  p ∈ greedy_survivors out d memory terms ↔
  p ∈ unordered_pairs (length terms)
  ∧ size_of (result_labels p terms out) d ≤ memory.
Proof. unfold greedy_survivors. rewrite list_elem_of_filter. naive_solver. Qed.

Lemma elem_of_greedy_entries terms e :
  e ∈ omap (greedy_entry out d memory terms) (unordered_pairs (length terms))
  ↔ entry_positions e ∈ greedy_survivors out d memory terms
    ∧ e = (greedy_key out d terms (entry_positions e), entry_positions e,
           remaining_terms (entry_positions e) terms out).
Proof.
  rewrite list_elem_of_omap, elem_of_greedy_survivors. split.
  - intros (p & Hp & [Hsz ->]%greedy_entry_Some). done.
  - intros [[Hp Hsz] He]. exists (entry_positions e). split; [done|].
    apply greedy_entry_Some. done.
Qed.

Lemma greedy_entries_nil terms :
  omap (greedy_entry out d memory terms) (unordered_pairs (length terms)) = []
  ↔ greedy_survivors out d memory terms = [].
Proof.
  split; intros Hnil.
  - destruct (greedy_survivors _ _ _ _) as [|p l] eqn:E; [done|].
    assert (p ∈ greedy_survivors out d memory terms) as Hp
      by (rewrite E; left).
    assert ((greedy_key out d terms p, p, remaining_terms p terms out)
            ∈ omap (greedy_entry out d memory terms)
                (unordered_pairs (length terms))) as He
      by by apply elem_of_greedy_entries.
    rewrite Hnil in He. by apply elem_of_nil in He.
  - destruct (omap _ _) as [|e l] eqn:E; [done|].
    assert (e ∈ omap (greedy_entry out d memory terms)
                  (unordered_pairs (length terms))) as He
      by (rewrite E; left).
    apply elem_of_greedy_entries in He as [He _].
    rewrite Hnil in He. by apply elem_of_nil in He.
Qed.

(** Entries are recorded in the order of their positions, so the sort
    decides between two entries on the key alone. *)
Lemma greedy_entries_sorted terms :
  StronglySorted
    (fun a b => tuple_lt (entry_positions a) (entry_positions b) = true)
    (omap (greedy_entry out d memory terms) (unordered_pairs (length terms))).
Proof.
  apply (StronglySorted_omap (fun p q => tuple_lt p q = true));
    [apply triu_indices_sorted|].
  by intros p q a b Hpq [_ ->]%greedy_entry_Some [_ ->]%greedy_entry_Some.
Qed.

Lemma sort_key_lt_irrefl k : sort_key_lt k k = false.
Proof. unfold sort_key_lt. by rewrite !bool_decide_false by naive_solver. Qed.

Lemma entry_lt_key (b x : entry) :
  tuple_lt (entry_positions b) (entry_positions x) = true →
  entry_lt x b = sort_key_lt (entry_sort x) (entry_sort b).
Proof.
  intros Hbx. unfold entry_lt. case_bool_decide as Hk; [done|].
  rewrite Hk, sort_key_lt_irrefl, bool_decide_true.
  - by apply tuple_lt_asym.
  - apply not_eq_sym. by eapply py_seq_lt_ne.
Qed.

Lemma sort_key_lt_le a b : sort_key_lt a b = true → key_le a b.
Proof.
  unfold sort_key_lt, key_le. repeat case_bool_decide; try done;
    rewrite Z.ltb_lt; lia.
Qed.

Lemma sort_key_not_lt_le a b : sort_key_lt a b = false → key_le b a.
Proof.
  unfold sort_key_lt, key_le. repeat case_bool_decide; try done;
    rewrite ?Z.ltb_ge; lia.
Qed.

Lemma key_le_refl a : key_le a a.
Proof. unfold key_le. lia. Qed.

Lemma key_le_trans a b c : key_le a b → key_le b c → key_le a c.
Proof. unfold key_le. lia. Qed.

(** The head of the sorted entries is a best-ranked survivor. *)
Lemma greedy_best terms best :
  head (py_sort entry_lt
          (omap (greedy_entry out d memory terms)
                (unordered_pairs (length terms)))) = Some best →
  entry_positions best ∈ greedy_survivors out d memory terms
  ∧ entry_inp best = remaining_terms (entry_positions best) terms out
  ∧ ∀ q, q ∈ greedy_survivors out d memory terms →
         key_le (greedy_key out d terms (entry_positions best))
                (greedy_key out d terms q).
Proof.
  rewrite head_py_sort.
  rewrite (scan_min_agree _
             (fun x b => sort_key_lt (entry_sort x) (entry_sort b)) _ _ _
             (greedy_entries_sorted terms)); [|done|apply entry_lt_key].
  intros ([[=]|Hin] & _ & Hle)%(scan_min_least _
    (fun a b => key_le (entry_sort a) (entry_sort b))).
  - apply elem_of_greedy_entries in Hin as [Hin Hbest]. split_and!; [done|..].
    + by rewrite Hbest at 1.
    + intros q Hq.
      specialize (Hle (greedy_key out d terms q, q, remaining_terms q terms out)).
      rewrite Hbest in Hle at 1. apply Hle.
      by apply elem_of_greedy_entries.
  - intros x b. apply sort_key_lt_le.
  - intros x b. apply sort_key_not_lt_le.
  - intros x. apply key_le_refl.
  - intros x y z. apply key_le_trans.
Qed.
End greedy_round.

Section greedy_loop.
Context (out : labels) (d : dims) (memory : Z).

Lemma path_opportunistic_loop_run n rounds i path inp_set :
  dims_cover d inp_set →
  length inp_set = (n - i)%nat →
  ∃ plan,
    path_opportunistic_loop out d memory n (seq i rounds) path inp_set
    = Ok (path ++ plan)
    ∧ greedy_run out d memory rounds inp_set plan.
Proof.
  revert i path inp_set.
  induction rounds as [|rounds IH]; intros i path inp_set Hd Hlen.
  { exists []. rewrite app_nil_r. split; [done|constructor]. }
  cbn [seq path_opportunistic_loop].
  rewrite path_opportunistic_round, bind_ok by done. cbn [app].
  change (triu_indices (length inp_set))
    with (unordered_pairs (length inp_set)).
  case_bool_decide as Hnil.
  - apply length_zero_iff_nil, greedy_entries_nil in Hnil.
    exists [full_step (length inp_set)]. split.
    + unfold full_step. by rewrite Hlen.
    + by constructor.
  - destruct (head (py_sort entry_lt
                (omap (greedy_entry out d memory inp_set)
                      (unordered_pairs (length inp_set)))))
      as [best|] eqn:Hbest.
    + rewrite (first_item_head _ _ Hbest), bind_ok.
      apply greedy_best in Hbest as (Hin & Hinp & Hle).
      apply elem_of_greedy_survivors in Hin as Hpair. destruct Hpair as [Hpair _].
      destruct (IH (S i) (path ++ [entry_positions best]) (entry_inp best))
        as (plan & Hrun & Hplan).
      * rewrite Hinp. by apply dims_cover_remaining.
      * rewrite Hinp, length_remaining_pair by done. lia.
      * exists (entry_positions best :: plan). split.
        -- by rewrite Hrun, <-app_assoc.
        -- apply greedy_commit; [done..|]. by rewrite <-Hinp.
    + apply head_None in Hbest. apply (f_equal length) in Hbest.
      rewrite (Permutation_length (py_sort_perm _ _)) in Hbest. done.
Qed.
End greedy_loop.

Lemma path_opportunistic_run (inp : list str) (out : labels) (d : dims)
    (memory : Z) :
  dims_cover d (set_of <$> inp) →
  ∃ plan,
    _path_opportunistic inp out d memory = Ok plan
    ∧ greedy_run out d memory (length inp - 1) (set_of <$> inp) plan.
Proof.
  intros Hd. unfold _path_opportunistic.
  destruct (path_opportunistic_loop_run out d memory (length inp)
              (length inp - 1) 0 [] (set_of <$> inp)) as (plan & Hrun & Hplan).
  - done.
  - rewrite length_fmap. lia.
  - by exists plan.
Qed.


(** * Splitting the expression *)

(** [sorted] on items with distinct keys. *)
Section sorted.
Context {A : Type} (lt : A → A → bool).
Hypothesis lt_asym : ∀ x y, lt x y = true → lt y x = false.
Hypothesis not_lt_trans :
  ∀ x y z, lt y x = false → lt z y = false → lt z x = false.

Lemma py_insert_sorted x l :
  StronglySorted (not_after lt) l →
  StronglySorted (not_after lt) (py_insert lt x l).
Proof.
  induction 1 as [|y l Hl IH Hy]; simpl; [repeat constructor|].
  destruct (lt x y) eqn:Hxy.
  - constructor; [by constructor|]. constructor; [by apply lt_asym|].
    eapply Forall_impl; [done|]. intros z Hz. unfold not_after in *.
    eapply not_lt_trans; [|done]. by apply lt_asym.
  - constructor; [done|]. apply Forall_forall. intros z Hz.
    rewrite py_insert_perm in Hz. apply elem_of_cons in Hz as [->|Hz]; [done|].
    rewrite Forall_forall in Hy. by apply Hy.
Qed.

Lemma py_sort_sorted l : StronglySorted (not_after lt) (py_sort lt l).
Proof.
  unfold py_sort.
  assert (StronglySorted (not_after lt) []) as Hacc by constructor.
  revert Hacc. generalize (@nil A).
  induction l as [|x l IH]; intros acc Hacc; simpl; [done|].
  by apply IH, py_insert_sorted.
Qed.
End sorted.

Section chars.
Implicit Types (s t : str) (c : ascii).

Lemma nat_of_ascii_inj a b : nat_of_ascii a = nat_of_ascii b → a = b.
Proof.
  intros H. by rewrite <-(ascii_nat_embedding a), <-(ascii_nat_embedding b), H.
Qed.

Lemma sorted_chars_sorted (X : labels) :
  StronglySorted (fun a b => (nat_of_ascii a < nat_of_ascii b)%nat)
                 (sorted_chars X).
Proof.
  unfold sorted_chars.
  assert (NoDup (py_sort char_lt (elements X))) as Hnd.
  { rewrite py_sort_perm. apply NoDup_elements. }
  assert (StronglySorted (not_after char_lt)
            (py_sort char_lt (elements X))) as Hs.
  { apply py_sort_sorted; unfold char_lt.
    - intros x y. rewrite Nat.ltb_lt, Nat.ltb_ge. lia.
    - intros x y z. rewrite !Nat.ltb_ge. lia. }
  revert Hnd Hs. generalize (py_sort char_lt (elements X)).
  induction l as [|a l IH]; intros Hnd Hs; [constructor|].
  apply NoDup_cons in Hnd as [Ha Hnd].
  apply StronglySorted_cons in Hs as [Hal Hs].
  constructor; [by apply IH|]. apply Forall_forall. intros b Hb.
  rewrite Forall_forall in Hal. specialize (Hal b Hb).
  unfold not_after, char_lt in Hal. apply Nat.ltb_ge in Hal.
  assert (nat_of_ascii a ≠ nat_of_ascii b); [|lia].
  intros ->%nat_of_ascii_inj. done.
Qed.

Lemma elem_of_sorted_chars c (X : labels) : c ∈ sorted_chars X ↔ c ∈ X.
Proof. unfold sorted_chars. by rewrite py_sort_perm, elem_of_elements. Qed.

Lemma foldl_append_if (P : ascii → bool) (acc l : str) :
  foldl (fun out c => if P c then out ++ [c] else out) acc l
  = acc ++ filter (fun c => P c = true) l.
Proof.
  revert acc. induction l as [|c l IH]; intros acc; simpl.
  - by rewrite app_nil_r.
  - rewrite IH, filter_cons. destruct (P c) eqn:HP.
    + rewrite decide_True by done. by rewrite <-app_assoc.
    + by rewrite decide_False by congruence.
Qed.

Lemma infer_output_filter s :
  infer_output s
  = filter (fun c => count_char c (remove_commas s) = 1%nat)
           (sorted_chars (set_of (remove_commas s))).
Proof.
  unfold infer_output. cbv zeta.
  rewrite (foldl_append_if
             (fun c => bool_decide (count_char c (remove_commas s) = 1%nat))).
  simpl. apply list_filter_iff. intros c. by rewrite bool_decide_eq_true.
Qed.

Lemma count_char_pos c s : (0 < count_char c s)%nat ↔ c ∈ s.
Proof.
  unfold count_char. induction s as [|x s IH]; simpl.
  - split; [lia|by intros ?%elem_of_nil].
  - rewrite filter_cons, elem_of_cons. destruct (decide (x = c)) as [->|];
      simpl; [naive_solver lia|]. rewrite IH. naive_solver.
Qed.

Lemma count_char_app c s t :
  count_char c (s ++ t) = (count_char c s + count_char c t)%nat.
Proof. unfold count_char. by rewrite filter_app, length_app. Qed.

Lemma count_char_concat c (ts : list str) :
  count_char c (concat ts) = sum_list (count_char c <$> ts).
Proof.
  induction ts as [|t ts IH]; simpl; [done|].
  by rewrite count_char_app, IH.
Qed.

(** The operand terms, glued, are the expression without its commas. *)
Lemma concat_split_comma_from cur s :
  concat (split_comma_from cur s) = rev cur ++ remove_commas s.
Proof.
  revert cur. induction s as [|c s IH]; intros cur; simpl.
  - change (remove_commas []) with (@nil ascii). by rewrite !app_nil_r.
  - unfold remove_commas, remove_char in *. rewrite filter_cons.
    case_bool_decide as Hc.
    + subst c. rewrite decide_False by naive_solver. simpl.
      by rewrite IH.
    + rewrite decide_True by done. rewrite IH. simpl.
      by rewrite <-app_assoc.
Qed.

Lemma concat_split_comma s : concat (split_comma s) = remove_commas s.
Proof. apply concat_split_comma_from. Qed.

Lemma elem_of_infer_output s c :
  c ∈ infer_output s ↔ sum_list (count_char c <$> split_comma s) = 1%nat.
Proof.
  rewrite infer_output_filter, list_elem_of_filter, elem_of_sorted_chars.
  unfold set_of. rewrite elem_of_list_to_set, <-count_char_concat,
    concat_split_comma, <-count_char_pos.
  lia.
Qed.

Lemma infer_output_sorted s :
  StronglySorted (fun a b => (nat_of_ascii a < nat_of_ascii b)%nat)
                 (infer_output s).
Proof.
  rewrite infer_output_filter.
  generalize (sorted_chars_sorted (set_of (remove_commas s))).
  generalize (sorted_chars (set_of (remove_commas s))).
  induction 1 as [|a l Hl IH Ha]; [constructor|].
  rewrite filter_cons. case_decide; [|done].
  constructor; [done|]. apply Forall_forall.
  intros b [_ Hb]%list_elem_of_filter. rewrite Forall_forall in Ha. eauto.
Qed.

(** Splitting at the separator. *)
Lemma has_arrow_cons c c' s :
  has_arrow (c :: c' :: s)
  = (bool_decide (c = "-"%char) && bool_decide (c' = ">"%char))
    || has_arrow (c' :: s).
Proof. done. Qed.

Lemma split_arrow_from_cons cur c c' rest :
  split_arrow_from cur (c :: c' :: rest)
  = if bool_decide (c = "-"%char) && bool_decide (c' = ">"%char)
    then rev cur :: split_arrow_from [] rest
    else split_arrow_from (c :: cur) (c' :: rest).
Proof. done. Qed.

Lemma split_arrow_from_none cur s :
  has_arrow s = false → split_arrow_from cur s = [rev cur ++ s].
Proof.
  revert cur. induction s as [|c tl IH]; intros cur.
  - simpl. by rewrite app_nil_r.
  - destruct tl as [|c' rest].
    + intros _. done.
    + rewrite has_arrow_cons. intros [Hcc Htl]%orb_false_iff.
      rewrite split_arrow_from_cons, Hcc.
      rewrite (IH (c :: cur) Htl). simpl. by rewrite <-app_assoc.
Qed.

Lemma split_arrow_from_first cur s t :
  has_arrow s = false →
  split_arrow_from cur (s ++ chars "->" ++ t)
  = (rev cur ++ s) :: split_arrow_from [] t.
Proof.
  revert cur. induction s as [|c tl IH]; intros cur.
  - intros _. simpl. by rewrite app_nil_r.
  - destruct tl as [|c' rest].
    + intros _.
      change ([c] ++ chars "->" ++ t) with (c :: "-"%char :: ">"%char :: t).
      rewrite split_arrow_from_cons.
      rewrite (bool_decide_false ("-"%char = ">"%char)) by done.
      rewrite andb_false_r, split_arrow_from_cons.
      by rewrite !bool_decide_true by done.
    + rewrite has_arrow_cons. intros [Hcc Htl]%orb_false_iff.
      change ((c :: c' :: rest) ++ chars "->" ++ t)
        with (c :: c' :: (rest ++ chars "->" ++ t)).
      rewrite split_arrow_from_cons, Hcc.
      change (c' :: (rest ++ chars "->" ++ t))
        with ((c' :: rest) ++ chars "->" ++ t).
      rewrite (IH (c :: cur) Htl). simpl. by rewrite <-app_assoc.
Qed.

Lemma has_arrow_app_arrow s t : has_arrow (s ++ chars "->" ++ t) = true.
Proof.
  induction s as [|c tl IH]; [done|].
  change ((c :: tl) ++ chars "->" ++ t) with (c :: (tl ++ chars "->" ++ t)).
  destruct (tl ++ chars "->" ++ t) as [|c' rest] eqn:E.
  - by destruct tl.
  - rewrite has_arrow_cons, IH. apply orb_true_r.
Qed.

Lemma split_expression_implicit s :
  has_arrow s = false → split_expression s = Ok (s, infer_output s).
Proof. unfold split_expression. by intros ->. Qed.

Lemma split_expression_explicit s t :
  has_arrow s = false → has_arrow t = false →
  split_expression (s ++ chars "->" ++ t) = Ok (s, t).
Proof.
  intros Hs Ht. unfold split_expression, split_arrow.
  rewrite has_arrow_app_arrow, split_arrow_from_first by done.
  by rewrite split_arrow_from_none.
Qed.
End chars.

Lemma contract_execute_not_direct su kw path string :
  contract_execute su kw path ≠ Ok (DirectEinsum string).
Proof.
  unfold contract_execute.
  destruct (foldlM _ _ _) as [[[? input_list] steps]|]; simpl; [|done].
  destruct (getitem_list input_list 0); simpl; [|done].
  by case_bool_decide.
Qed.

Lemma contract_parsed_with_expression string string' input_string
    output_string views kw :
  contract_parsed string input_string output_string views kw
  = with_expression string
      (contract_parsed string' input_string output_string views kw).
Proof.
  unfold contract_parsed.
  destruct (contract_setup input_string output_string views) as [su|]; simpl;
    [|done].
  destruct (fast_path su kw); [done|].
  destruct (contract_request su kw) as [request|]; simpl; [|done].
  destruct (run_plan_request request) as [path|]; simpl; [|done].
  destruct (return_path_arg kw); [done|].
  pose proof (contract_execute_not_direct su kw path) as Hne.
  destruct (contract_execute su kw path) as [[s0| |]|]; simpl; try done.
  by destruct (Hne s0).
Qed.

(** C10: for an expression without ['->'], [contract] takes as output
    string the labels that occur exactly once over all operand terms, in
    ascending character order, and goes on exactly as it does for an input
    and an output string that were given; asking for that output
    explicitly (possible when the inferred string holds no ['->'] itself)
    changes nothing but the expression an early return hands to
    [np.einsum]. *)
Theorem contract_infers_output (string : str) (views : list (list Z))
    (kw : kwargs) :
  has_arrow string = false →
  StronglySorted (fun a b => (nat_of_ascii a < nat_of_ascii b)%nat)
                 (infer_output string)
  ∧ (∀ c, c ∈ infer_output string ↔
          sum_list (count_char c <$> split_comma string) = 1%nat)
  ∧ contract string views kw
    = contract_parsed string string (infer_output string) views kw
  ∧ (has_arrow (infer_output string) = false →
     contract (string ++ chars "->" ++ infer_output string) views kw
     = with_expression (string ++ chars "->" ++ infer_output string)
         (contract string views kw)).
Proof.
  intros Hs. split_and!.
  - apply infer_output_sorted.
  - intros c. apply elem_of_infer_output.
  - unfold contract. by rewrite split_expression_implicit.
  - intros Ho. unfold contract.
    rewrite (split_expression_implicit string),
      (split_expression_explicit string) by done.
    simpl. apply contract_parsed_with_expression.
Qed.

(** * Validation of the operands *)

Section validation.
Implicit Types (d : dims) (term : str) (sh : list Z)
  (seen pairs : list (ascii * Z)).

Lemma check_label_add_dim sh d i c v :
  sh !! i = Some v → check_label sh d (i, c) = add_dim d (c, v).
Proof.
  intros Hi. unfold check_label, add_dim, getitem_list. by rewrite Hi.
Qed.

Lemma check_label_zip sh d i term :
  length sh = (i + length term)%nat →
  foldlM (check_label sh) d (zip (seq i (length term)) term)
  = foldlM add_dim d (zip term (drop i sh)).
Proof.
  revert i d. induction term as [|c term IH]; intros i d Hlen; [done|].
  simpl in Hlen. destruct (drop i sh) as [|v sh'] eqn:Hdrop.
  { apply (f_equal length) in Hdrop. rewrite length_drop in Hdrop.
    simpl in Hdrop. lia. }
  assert (sh !! i = Some v) as Hi.
  { rewrite <-(Nat.add_0_r i), <-lookup_drop, Hdrop. done. }
  assert (drop (S i) sh = sh') as Hdrop'.
  { replace (S i) with (i + 1)%nat by lia. by rewrite <-drop_drop, Hdrop. }
  cbn [length seq zip zip_with foldlM].
  rewrite (check_label_add_dim _ _ _ _ _ Hi).
  destruct (add_dim d (c, v)) as [d'|e]; [|done].
  rewrite !bind_ok, <-Hdrop'. apply IH. lia.
Qed.

Lemma check_term_zip views d tnum term sh :
  views !! tnum = Some sh → length sh = length term →
  check_term views d (tnum, term) = foldlM add_dim d (zip term sh).
Proof.
  intros Hv Hlen. unfold check_term, getitem_list. rewrite Hv, bind_ok.
  rewrite bool_decide_false by (intros ?; done).
  unfold enumerate. by rewrite check_label_zip, drop_0.
Qed.

Lemma check_term_mismatch views d tnum term sh :
  views !! tnum = Some sh → length sh ≠ length term →
  check_term views d (tnum, term) = Raise (RankMismatch tnum).
Proof.
  intros Hv Hlen. unfold check_term, getitem_list. rewrite Hv, bind_ok.
  by rewrite bool_decide_true.
Qed.

Lemma add_dims_spec pairs d seen :
  table_of d seen →
  match foldlM add_dim d pairs with
  | Ok d' => table_of d' (seen ++ pairs)
  | Raise e =>
      ∃ c v v', e = LabelSizeConflict c ∧ v ≠ v'
                ∧ (c, v) ∈ seen ++ pairs ∧ (c, v') ∈ seen ++ pairs
  end.
Proof.
  revert d seen. induction pairs as [|[c v] pairs IH]; intros d seen Hd.
  - simpl. by rewrite app_nil_r.
  - cbn [foldlM]. destruct (add_dim d (c, v)) as [d'|e] eqn:Hadd.
    + rewrite bind_ok. specialize (IH d' (seen ++ [(c, v)])).
      rewrite <-app_assoc in IH. apply IH. clear IH.
      unfold add_dim in Hadd. simpl in Hadd. unfold table_of in *.
      intros c' v'. rewrite elem_of_app, list_elem_of_singleton.
      destruct (d !! c) as [v0|] eqn:Hc.
      * case_bool_decide as Hv; [done|]. injection Hadd as <-.
        assert (v0 = v) as -> by (by destruct (decide (v0 = v))).
        rewrite Hd. split; [by left|]. intros [?|[= -> ->]]; [done|].
        by apply Hd.
      * injection Hadd as <-. destruct (decide (c' = c)) as [->|Hne].
        -- rewrite lookup_insert_eq. split.
           ++ intros [= ->]. by right.
           ++ intros [Hin|[= ->]]; [|done]. apply Hd in Hin. congruence.
        -- rewrite lookup_insert_ne by done. rewrite Hd. naive_solver.
    + rewrite bind_raise. unfold add_dim in Hadd. simpl in Hadd.
      unfold table_of in *.
      destruct (d !! c) as [v0|] eqn:Hc; [|done].
      case_bool_decide as Hv; [|done]. injection Hadd as <-.
      exists c, v0, v. split_and!; [done..| |].
      * apply elem_of_app. left. by apply Hd.
      * apply elem_of_app. right. left.
Qed.

Lemma table_of_functional d seen c v v' :
  table_of d seen → (c, v) ∈ seen → (c, v') ∈ seen → v = v'.
Proof. intros Hd Hv%Hd Hv'%Hd. congruence. Qed.

(** The loop over the terms, from term [i] on. *)
Lemma check_terms_spec views terms shapes i d seen :
  shapes = drop i views → length terms = length shapes →
  table_of d seen →
  match foldlM (check_term views) d (zip (seq i (length terms)) terms) with
  | Ok d' =>
      Forall2 (fun term sh => length sh = length term) terms shapes
      ∧ table_of d' (seen ++ concat (zip_with zip terms shapes))
  | Raise (RankMismatch t) =>
      ∃ term sh, terms !! (t - i)%nat = Some term
                 ∧ shapes !! (t - i)%nat = Some sh
                 ∧ (i ≤ t)%nat ∧ length sh ≠ length term
  | Raise (LabelSizeConflict c) =>
      ∃ v v', v ≠ v'
              ∧ (c, v) ∈ seen ++ concat (zip_with zip terms shapes)
              ∧ (c, v') ∈ seen ++ concat (zip_with zip terms shapes)
  | Raise _ => False
  end.
Proof.
  revert shapes i d seen.
  induction terms as [|term terms IH]; intros shapes i d seen Hsh Hlen Hd.
  { destruct shapes; [|done]. simpl. split; [constructor|].
    by rewrite app_nil_r. }
  destruct shapes as [|sh shapes]; [done|]. injection Hlen as Hlen.
  assert (views !! i = Some sh) as Hi.
  { rewrite <-(Nat.add_0_r i), <-lookup_drop, <-Hsh. done. }
  assert (shapes = drop (S i) views) as Hsh'.
  { replace (S i) with (i + 1)%nat by lia. by rewrite <-drop_drop, <-Hsh. }
  cbn [length seq zip zip_with foldlM concat].
  destruct (decide (length sh = length term)) as [Hrank|Hrank].
  - rewrite (check_term_zip _ _ _ _ _ Hi Hrank).
    pose proof (add_dims_spec (zip term sh) d seen Hd) as Hadd.
    destruct (foldlM add_dim d (zip term sh)) as [d'|e].
    + rewrite bind_ok. specialize (IH shapes (S i) d' _ Hsh' Hlen Hadd).
      rewrite <-app_assoc in IH.
      destruct (foldlM (check_term views) d' _) as [d''|[]]; try done.
      * destruct IH as [Hall Htab]. split; [by constructor|done].
      * destruct IH as (term' & sh' & Ht & Hs & Hle & Hne).
        exists term', sh'. replace (tnum - i)%nat with (S (tnum - S i)) by lia.
        split_and!; [done..|lia|done].
    + rewrite bind_raise. destruct Hadd as (c & v & v' & -> & Hne & Hv & Hv').
      exists v, v'. rewrite app_assoc. split; [done|].
      split; apply elem_of_app; by left.
  - rewrite (check_term_mismatch _ _ _ _ _ Hi Hrank), bind_raise.
    exists term, sh. rewrite Nat.sub_diag. done.
Qed.

Lemma table_of_empty : table_of ∅ [].
Proof. intros c v. rewrite lookup_empty, elem_of_nil. naive_solver. Qed.

(** What [build_dimension_dict] returns, operand count and term count
    being equal. *)
Lemma build_dimension_dict_spec input_list views :
  length input_list = length views →
  match build_dimension_dict input_list views with
  | Ok d =>
      (∀ tnum, ¬ rank_mismatch_at input_list views tnum)
      ∧ (∀ c, ¬ size_conflict_on input_list views c)
      ∧ table_of d (label_sizes input_list views)
  | Raise (RankMismatch tnum) => rank_mismatch_at input_list views tnum
  | Raise (LabelSizeConflict c) => size_conflict_on input_list views c
  | Raise _ => False
  end.
Proof.
  intros Hlen. unfold build_dimension_dict, enumerate.
  pose proof (check_terms_spec views input_list views 0 ∅ []
                eq_refl Hlen table_of_empty) as Hspec.
  destruct (foldlM (check_term views) ∅ _) as [d|[]]; try done.
  - destruct Hspec as [Hall Htab]. simpl in Htab. split_and!; [| |done].
    + intros tnum (term & sh & Ht & Hs & Hne).
      by eapply Forall2_lookup_lr in Hall.
    + intros c (v & v' & Hne & Hv & Hv'). apply Hne.
      by eapply table_of_functional.
  - destruct Hspec as (term & sh & Ht & Hs & _ & Hne).
    rewrite Nat.sub_0_r in Ht, Hs. by exists term, sh.
Qed.
End validation.

(** * [contract]: set-up, errors and the memory ceiling *)

Section setup.
Implicit Types (su : setup) (kw : kwargs) (views : list (list Z)).

Lemma mapM_Ok {A B} (f : A → result B) (l : list A) (k : list B) :
  mapM f l = Ok k → Forall2 (fun x y => f x = Ok y) l k.
Proof.
  revert k. induction l as [|x l IH]; intros k; simpl.
  - intros [= <-]. constructor.
  - destruct (f x) as [y|] eqn:Hx; simpl; [|done].
    destruct (mapM f l) as [k'|]; simpl; [|done].
    intros [= <-]. constructor; [done|by apply IH].
Qed.

Lemma foldl_max_spec (l : list Z) (x : Z) :
  (foldl Z.max x l = x ∨ foldl Z.max x l ∈ l)
  ∧ x ≤ foldl Z.max x l ∧ ∀ y, y ∈ l → y ≤ foldl Z.max x l.
Proof.
  revert x. induction l as [|z l IH]; intros x; simpl.
  - split_and!; [by left|lia|by intros ? ?%elem_of_nil].
  - destruct (IH (Z.max x z)) as (Hin & Hle & Hall). split_and!.
    + destruct Hin as [Hin|Hin]; [|right; by right].
      rewrite Hin. destruct (Z.max_spec x z) as [[_ ->]|[_ ->]];
        [right; left|by left].
    + lia.
    + intros y [->|Hy]%elem_of_cons; [lia|by apply Hall].
Qed.

Lemma py_max_spec (l : list Z) (m : Z) :
  py_max l = Ok m → m ∈ l ∧ ∀ y, y ∈ l → y ≤ m.
Proof.
  destruct l as [|x l]; simpl; [done|]. intros [= <-].
  destruct (foldl_max_spec l x) as (Hin & Hle & Hall). split.
  - destruct Hin as [->|Hin]; [left|by right].
  - intros y [->|Hy]%elem_of_cons; [done|by apply Hall].
Qed.

Lemma contract_setup_Ok input_string output_string views su :
  contract_setup input_string output_string views = Ok su →
  "."%char ∉ input_string ∧ "."%char ∉ output_string
  ∧ length (split_comma input_string) = length views
  ∧ build_dimension_dict (split_comma input_string) views
    = Ok (su_dimension_dict su)
  ∧ su_input_list su = split_comma input_string
  ∧ su_output_string su = output_string
  ∧ su_input_set su = set_of <$> split_comma input_string
  ∧ su_output_set su = set_of output_string
  ∧ su_indices su = set_of (remove_commas input_string)
  ∧ (∃ size_list,
       mapM (fun term => _compute_size term (su_dimension_dict su))
            (split_comma input_string ++ [output_string]) = Ok size_list
       ∧ py_max size_list = Ok (su_out_size su))
  ∧ _compute_size (elements (set_of (remove_commas input_string)))
      (su_dimension_dict su) = Ok (su_total_flops su).
Proof.
  unfold contract_setup.
  destruct (bool_decide ("."%char ∈ input_string)) eqn:Hi; [done|].
  destruct (bool_decide ("."%char ∈ output_string)) eqn:Ho; [done|].
  apply bool_decide_eq_false in Hi, Ho. simpl.
  case_bool_decide as Hlen; [done|].
  assert (length (split_comma input_string) = length views) as Hlen'
    by (by destruct (decide (length (split_comma input_string) = length views))).
  destruct (build_dimension_dict _ _) as [d|]; [|done]. rewrite bind_ok.
  destruct (mapM _ _) as [size_list|] eqn:Hsizes; [|done]. rewrite bind_ok.
  destruct (py_max size_list) as [out_size|] eqn:Hmax; [|done].
  rewrite bind_ok.
  destruct (_compute_size _ d) as [total_flops|] eqn:Hflops; [|done].
  rewrite bind_ok. intros [= <-]. simpl. split_and!; try done.
  by exists size_list.
Qed.

Lemma contract_split string input_string output_string views kw :
  split_expression string = Ok (input_string, output_string) →
  contract string views kw
  = contract_parsed string input_string output_string views kw.
Proof. unfold contract. by intros ->. Qed.

Lemma contract_parsed_setup_raise string input_string output_string views
    kw e :
  contract_setup input_string output_string views = Raise e →
  contract_parsed string input_string output_string views kw = Raise e.
Proof. unfold contract_parsed. by intros ->. Qed.

Lemma contract_setup_dot input_string output_string views :
  "."%char ∈ input_string ∨ "."%char ∈ output_string →
  contract_setup input_string output_string views
  = Raise UnsupportedExpression.
Proof.
  intros Hdot. unfold contract_setup.
  destruct Hdot as [H|H]; rewrite (bool_decide_true _ H);
    by rewrite ?orb_true_r.
Qed.

Lemma contract_setup_validation input_string output_string views :
  "."%char ∉ input_string → "."%char ∉ output_string →
  length (split_comma input_string) = length views →
  (∃ tnum, rank_mismatch_at (split_comma input_string) views tnum)
  ∨ (∃ c, size_conflict_on (split_comma input_string) views c) →
  ∃ e, contract_setup input_string output_string views = Raise e
       ∧ ((∃ tnum, e = RankMismatch tnum
                   ∧ rank_mismatch_at (split_comma input_string) views tnum)
          ∨ (∃ c, e = LabelSizeConflict c
                  ∧ size_conflict_on (split_comma input_string) views c)).
Proof.
  intros Hi Ho Hlen Hbad. unfold contract_setup.
  rewrite !bool_decide_false by done. simpl.
  rewrite bool_decide_false by (intros ?; done).
  pose proof (build_dimension_dict_spec _ _ Hlen) as Hspec.
  destruct (build_dimension_dict _ _) as [d|e].
  - destruct Hspec as (Hrank & Hsize & _).
    destruct Hbad as [[tnum Ht]|[c Hc]]; [by destruct (Hrank tnum)|].
    by destruct (Hsize c).
  - exists e. split; [done|]. destruct e; try done; eauto.
Qed.

Lemma choose_plan_unknown name input_list output_set d memory out_size :
  name ≠ chars "opportunistic" → name ≠ chars "optimal" →
  choose_plan (PathName name) input_list output_set d memory out_size
  = if bool_decide (length input_list = 2%nat) then Ok SinglePair
    else Raise UnknownStrategy.
Proof.
  intros H1 H2. unfold choose_plan. case_bool_decide; [done|].
  by rewrite !bool_decide_false by done.
Qed.
End setup.

(** C9, as the code has it: an ellipsis, a rank mismatch and a label size
    conflict are found by the set-up of [contract], which raises before any
    path is planned and before any array is touched, whatever the keyword
    arguments are; an unrecognized strategy name raises only when the set-up
    succeeds, no early return applies and the operand count is not two: on
    an early return the name is never looked at, and with two operands the
    single pair is taken as the path. *)
Theorem contract_errors (string input_string output_string : str)
    (views : list (list Z)) (kw : kwargs) :
  split_expression string = Ok (input_string, output_string) →
  (("."%char ∈ input_string ∨ "."%char ∈ output_string) →
   contract string views kw = Raise UnsupportedExpression)
  ∧ ("."%char ∉ input_string → "."%char ∉ output_string →
     length (split_comma input_string) = length views →
     (∃ tnum, rank_mismatch_at (split_comma input_string) views tnum)
     ∨ (∃ c, size_conflict_on (split_comma input_string) views c) →
     ∃ e, contract_setup input_string output_string views = Raise e
          ∧ contract string views kw = Raise e
          ∧ ((∃ tnum, e = RankMismatch tnum
                ∧ rank_mismatch_at (split_comma input_string) views tnum)
             ∨ (∃ c, e = LabelSizeConflict c
                  ∧ size_conflict_on (split_comma input_string) views c)))
  ∧ (∀ su name,
       contract_setup input_string output_string views = Ok su →
       path_arg_of kw = PathName name →
       name ≠ chars "opportunistic" → name ≠ chars "optimal" →
       if fast_path su kw then
         contract string views kw = Ok (DirectEinsum string)
       else if bool_decide (length (su_input_list su) = 2%nat) then
         contract_request su kw = Ok SinglePair
         ∧ contract string views kw
           = (if return_path_arg kw then Ok (ReturnedPath [[0; 1]%nat])
              else contract_execute su kw [[0; 1]%nat])
       else
         contract_request su kw = Raise UnknownStrategy
         ∧ contract string views kw = Raise UnknownStrategy).
Proof.
  intros Hsplit. rewrite (contract_split _ _ _ _ _ Hsplit). split_and!.
  - intros Hdot. by apply contract_parsed_setup_raise, contract_setup_dot.
  - intros Hi Ho Hlen Hbad.
    destruct (contract_setup_validation _ _ _ Hi Ho Hlen Hbad) as (e & He & Hk).
    exists e. split_and!; [done| |done]. by apply contract_parsed_setup_raise.
  - intros su name Hsu Hname H1 H2. unfold contract_parsed, contract_request.
    rewrite Hsu, bind_ok, Hname, choose_plan_unknown by done.
    destruct (fast_path su kw); [done|]. by case_bool_decide.
Qed.

(** C8, as the code has it: the default ceiling is the largest of the sizes
    of the operand terms and of the output term; the exhaustive strategy is
    called with the caller's ceiling when there is one and with the default
    otherwise, the greedy strategy with the smaller of the caller's ceiling
    and the default. *)
Theorem contract_memory_ceiling (input_string output_string : str)
    (views : list (list Z)) (kw : kwargs) (su : setup) :
  contract_setup input_string output_string views = Ok su →
  (∃ size_list,
     Forall2 (fun term s => _compute_size term (su_dimension_dict su) = Ok s)
             (su_input_list su ++ [su_output_string su]) size_list
     ∧ su_out_size su ∈ size_list
     ∧ ∀ s, s ∈ size_list → s ≤ su_out_size su)
  ∧ (length (su_input_list su) ≠ 2%nat →
     path_arg_of kw = PathName (chars "optimal") →
     contract_request su kw
     = Ok (CallOptimal (su_input_list su) (su_output_set su)
             (su_dimension_dict su)
             (default (su_out_size su) (kw_memory kw))))
  ∧ (length (su_input_list su) ≠ 2%nat →
     path_arg_of kw = PathName (chars "opportunistic") →
     contract_request su kw
     = Ok (CallOpportunistic (su_input_list su) (su_output_set su)
             (su_dimension_dict su)
             (Z.min (default (su_out_size su) (kw_memory kw))
                    (su_out_size su)))).
Proof.
  intros (_ & _ & _ & _ & Hil & Hos & _ & _ & _ & (size_list & Hsizes & Hmax)
          & _)%contract_setup_Ok.
  split_and!.
  - exists size_list. rewrite Hil, Hos. split; [by apply mapM_Ok|].
    by apply py_max_spec.
  - intros Hn Hp. unfold contract_request, choose_plan, memory_arg.
    rewrite Hp, bool_decide_false by done. by rewrite bool_decide_false.
  - intros Hn Hp. unfold contract_request, choose_plan, memory_arg.
    rewrite Hp, bool_decide_false by done. by rewrite bool_decide_true.
Qed.

(** * The plans of both strategies on the operand label sets *)

Section plans.
Context (out : labels).
Implicit Types (terms : list labels) (plan : list (list nat)).

Lemma union_pick_from keep i terms :
  ⋃ pick_from keep i terms ∪ ⋃ pick_from (fun j => negb (keep j)) i terms
  = ⋃ terms.
Proof.
  revert i. induction terms as [|t terms IH]; intros i; simpl.
  - set_solver.
  - specialize (IH (S i)). destruct (keep i); simpl; set_solver.
Qed.

Lemma union_remaining_terms p terms :
  out ∩ ⋃ remaining_terms p terms out = out ∩ ⋃ terms.
Proof.
  unfold remaining_terms, result_labels, touched_labels, selected_terms,
    untouched_terms.
  rewrite <-(union_pick_from (fun i => bool_decide (i ∈ p)) 0 terms).
  rewrite union_list_app_L. simpl. set_solver.
Qed.

Lemma remaining_terms_full terms :
  remaining_terms (full_step (length terms)) terms out = [out ∩ ⋃ terms].
Proof.
  unfold remaining_terms, result_labels, touched_labels.
  rewrite untouched_full, selected_full. simpl. f_equal. set_solver.
Qed.

Lemma unordered_pairs_two p : p ∈ unordered_pairs 2 → p = full_step 2.
Proof. unfold unordered_pairs. rewrite triu_indices_two. by intros ->%list_elem_of_singleton. Qed.

Lemma reducing_plan_one plan : reducing_plan 1 plan → plan = [].
Proof.
  inversion 1 as [|k Hk|k p plan' Hp]; subst; [done|lia|].
  apply elem_of_triu_indices in Hp as (i & j & _ & ?). lia.
Qed.

Lemma replay_reducing terms plan :
  reducing_plan (length terms) plan →
  (2 ≤ length terms)%nat →
  replay out terms plan = [out ∩ ⋃ terms].
Proof.
  remember (length terms) as k eqn:Hk. intros Hplan. revert terms Hk.
  induction Hplan as [|k Hk2|k p plan Hp Hplan IH]; intros terms Hk Hn.
  - lia.
  - simpl. subst k. apply remaining_terms_full.
  - simpl. subst k. destruct (decide (length terms = 2%nat)) as [H2|H2].
    + rewrite H2 in Hplan, Hp. apply reducing_plan_one in Hplan as ->.
      apply unordered_pairs_two in Hp as ->. simpl.
      rewrite <-H2. apply remaining_terms_full.
    + rewrite IH.
      * by rewrite union_remaining_terms.
      * by rewrite length_remaining_pair.
      * lia.
Qed.

Lemma reducing_step_count k plan : reducing_plan k plan → step_count_ok k plan.
Proof.
  unfold step_count_ok.
  induction 1 as [|k Hk|k p plan Hp Hplan IH]; simpl.
  - by left.
  - destruct (decide (k = 2%nat)) as [->|]; [by left|]. right. split; [lia|].
    exists (full_step k). split; [left|]. unfold full_step.
    rewrite length_seq. lia.
  - apply elem_of_triu_indices in Hp as (i & j & _ & ?).
    destruct IH as [IH|(IH & step & Hstep & Hlen)]; [left; lia|].
    right. split; [lia|]. exists step. split; [by right|done].
Qed.

Lemma pairwise_reducing k plan :
  pairwise_plan k plan → length plan = (k - 1)%nat → (1 ≤ k)%nat →
  reducing_plan k plan.
Proof.
  revert k. induction plan as [|p plan IH]; intros k; simpl.
  - intros _ Hlen Hk. assert (k = 1%nat) as -> by lia. constructor.
  - intros [Hp Hplan] Hlen Hk. apply reducing_pair; [done|].
    apply elem_of_triu_indices in Hp as (i & j & _ & ?).
    apply IH; [done|lia..].
Qed.

Lemma exhaustive_plan_reducing d memory terms :
  (2 ≤ length terms)%nat →
  reducing_plan (length terms) (exhaustive_plan terms out d memory).
Proof.
  intros Hn. unfold exhaustive_plan.
  destruct (exhaustive_selected terms out d memory) as [c|] eqn:Hc.
  - apply exhaustive_selected_optimal in Hc as ((Hlen & Hpw & _) & _).
    apply pairwise_reducing; [done..|lia].
  - by apply reducing_full.
Qed.

Lemma greedy_run_reducing d memory rounds terms plan :
  greedy_run out d memory rounds terms plan →
  length terms = S rounds →
  reducing_plan (S rounds) plan.
Proof.
  induction 1 as [terms|rounds terms Hnil|rounds terms pair plan Hin Hle Hrun IH];
    intros Hlen.
  - constructor.
  - rewrite Hlen. apply reducing_full. lia.
  - apply elem_of_greedy_survivors in Hin as [Hpair _].
    apply reducing_pair; [by rewrite <-Hlen|].
    replace (S (S rounds) - 1)%nat with (S rounds) by lia. apply IH.
    rewrite length_remaining_pair by done. lia.
Qed.
End plans.

(** On the operand label sets both strategies keep the promise of a valid
    plan: for two or more operands whose labels all have a size, the plan
    has [operand_count - 1] steps, or fewer when a step fuses three or more
    operands, and replaying it with [_find_contraction] leaves one label
    set, the output labels that occur in the operands. *)
Lemma plans_valid_on_label_sets (inp : list str) (out : labels) (d : dims)
    (memory : Z) (greedy : bool) :
  (2 ≤ length inp)%nat →
  dims_cover d (set_of <$> inp) →
  ∃ plan,
    (if greedy then _path_opportunistic inp out d memory
     else _path_optimal inp out d memory) = Ok plan
    ∧ step_count_ok (length inp) plan
    ∧ replay out (set_of <$> inp) plan = [out ∩ ⋃ (set_of <$> inp)].
Proof.
  intros Hn Hd.
  assert (∃ plan,
    (if greedy then _path_opportunistic inp out d memory
     else _path_optimal inp out d memory) = Ok plan
    ∧ reducing_plan (length (set_of <$> inp)) plan) as (plan & Hplan & Hred).
  { destruct greedy.
    - destruct (path_opportunistic_run inp out d memory Hd)
        as (plan & Hplan & Hrun).
      exists plan. split; [done|]. rewrite length_fmap.
      replace (length inp) with (S (length inp - 1)) by lia.
      eapply greedy_run_reducing; [done|]. rewrite length_fmap. lia.
    - exists (exhaustive_plan (set_of <$> inp) out d memory). split.
      + apply path_optimal_plan; [lia|done].
      + apply exhaustive_plan_reducing. by rewrite length_fmap. }
  exists plan. split_and!; [done| |].
  - rewrite <-(length_fmap set_of inp). by apply reducing_step_count.
  - apply replay_reducing; [done|]. by rewrite length_fmap.
Qed.

(** With a single operand the exhaustive strategy reads [new] before any
    assignment; the greedy strategy returns the empty plan. *)
Lemma path_optimal_single_operand (term : str) (out : labels) (d : dims)
    (memory : Z) :
  _path_optimal [term] out d memory = Raise UnboundLocalError
  ∧ _path_opportunistic [term] out d memory = Ok [].
Proof. done. Qed.

(** With two or more operands neither strategy fails, and a strategy whose
    candidates are all pruned ends its plan with one step over all the live
    positions. *)
Lemma planning_succeeds (inp : list str) (out : labels) (d : dims)
    (memory : Z) :
  (2 ≤ length inp)%nat →
  dims_cover d (set_of <$> inp) →
  (∃ plan, _path_opportunistic inp out d memory = Ok plan
           ∧ greedy_run out d memory (length inp - 1) (set_of <$> inp) plan)
  ∧ (∃ plan, _path_optimal inp out d memory = Ok plan
             ∧ ((∀ q, ¬ feasible_plan out d memory (set_of <$> inp) q) →
                plan = [full_step (length inp)])).
Proof.
  intros Hn Hd. split; [by apply path_opportunistic_run|].
  exists (exhaustive_plan (set_of <$> inp) out d memory). split.
  - apply path_optimal_plan; [lia|done].
  - intros Hno%exhaustive_selected_None. unfold exhaustive_plan.
    by rewrite Hno, length_fmap.
Qed.

(** * The contraction loop on the operand label sets *)

Section execute.
Context (tdot : bool) (d : dims) (out : labels).

Lemma elem_of_sorted_desc i (step : list nat) : i ∈ sorted_desc step ↔ i ∈ step.
Proof. unfold sorted_desc. by rewrite py_sort_perm. Qed.

(** A step of the loop updates [input_set] as the planner did when it sized
    the step, and records one more term. *)
Lemma contract_step_sets (sets sets' : list labels) (strs strs' : list str)
    (steps steps' : list step_record) (step : list nat) :
  contract_step tdot d out (sets, strs, steps) step = Ok (sets', strs', steps') →
  sets' = remaining_terms step sets out
  ∧ ∃ rec, steps' = steps ++ [rec].
Proof.
  unfold contract_step. rewrite find_contraction_plan.
  rewrite (plan_contraction_ext (sorted_desc step) step)
    by (intros i; apply elem_of_sorted_desc).
  unfold plan_contraction.
  destruct (pop_all strs (sorted_desc step)) as [[tmp_input rest]|]; [|done].
  rewrite bind_ok. destruct (getitem_list tmp_input 0) as [t0|]; [|done].
  rewrite bind_ok. destruct (getitem_list tmp_input 1) as [t1|]; [|done].
  rewrite bind_ok.
  match goal with
  | |- context [?r ≫= _] => destruct r as [rec|]; [|done]
  end.
  rewrite bind_ok. intros [= <- <- <-]. eauto.
Qed.

Lemma contract_loop_sets (path : list (list nat)) (sets sets' : list labels)
    (strs strs' : list str) (steps steps' : list step_record) :
  foldlM (contract_step tdot d out) (sets, strs, steps) path
  = Ok (sets', strs', steps') →
  sets' = replay out sets path.
Proof.
  revert sets strs steps. induction path as [|step path IH];
    intros sets strs steps; cbn [foldlM replay].
  - by intros [= <- <- <-].
  - destruct (contract_step tdot d out (sets, strs, steps) step)
      as [[[sets1 strs1] steps1]|] eqn:Hstep; [|by rewrite bind_raise].
    rewrite bind_ok. intros Hrest.
    apply contract_step_sets in Hstep as [-> _]. by eapply IH.
Qed.
End execute.

(** * The claims of the specification *)

Lemma pick_from_sublist keep i (terms : list labels) :
  pick_from keep i terms `sublist_of` terms.
Proof.
  revert i. induction terms as [|t terms IH]; intros i; simpl; [done|].
  destruct (keep i); [by apply sublist_skip|by apply sublist_cons].
Qed.

(** C3: [_find_contraction] computes the planning operation of the
    specification. The result labels are (the labels of the non-selected
    operands plus the output labels) intersected with the labels of the
    selected operands; the remaining terms are the non-selected operand label
    sets, in operand order, followed by the result labels; the eliminated
    labels are the touched labels minus the result labels; the touched
    labels are the union of the labels of the selected operands. *)
Theorem find_contraction_spec (positions : list nat) (terms : list labels)
    (out : labels) :
  let selected := selected_terms positions terms in
  let untouched := untouched_terms positions terms in
  let touched := ⋃ selected in
  let result := (⋃ untouched ∪ out) ∩ touched in
  _find_contraction positions terms out
  = (result, untouched ++ [result], touched ∖ result, touched)
  ∧ (∀ t, t ∈ selected ↔ ∃ i, i ∈ positions ∧ terms !! i = Some t)
  ∧ (∀ t, t ∈ untouched ↔ ∃ i, i ∉ positions ∧ terms !! i = Some t)
  ∧ untouched `sublist_of` terms.
Proof.
  cbv zeta. split_and!.
  - apply find_contraction_plan.
  - intros t. unfold selected_terms. rewrite elem_of_pick_from_lookup.
    split; intros (i & H1 & H2); exists i.
    + by apply bool_decide_eq_true in H2.
    + by rewrite bool_decide_eq_true.
  - intros t. unfold untouched_terms. rewrite elem_of_pick_from_lookup.
    split; intros (i & H1 & H2); exists i.
    + by apply negb_true_iff, bool_decide_eq_false in H2.
    + by rewrite negb_true_iff, bool_decide_eq_false.
  - apply pick_from_sublist.
Qed.

(** C4: with at least two operands (one round or more), [_path_optimal]
    returns the plan of the exhaustive strategy as the specification words
    it: [operand_count - 1] rounds, each extending every surviving candidate
    by every unordered pair of its live positions, a step costing the size of
    its touched labels, doubled when it eliminates a label, costs accumulated
    per candidate, candidates whose result labels exceed the ceiling dropped.
    The candidate returned stands in the last frontier, no candidate there
    is cheaper and every candidate listed before it costs strictly more; it
    is a complete pairwise plan within the ceiling, and no such plan has a
    lower total cost. *)
Theorem path_optimal_exhaustive (inp : list str) (out : labels) (d : dims)
    (memory : Z) :
  (1 < length inp)%nat →
  dims_cover d (set_of <$> inp) →
  let terms := set_of <$> inp in
  let frontier := exhaustive_frontier out d memory terms (length terms - 1) in
  _path_optimal inp out d memory = Ok (exhaustive_plan terms out d memory)
  ∧ (∀ k p, p ∈ unordered_pairs k ↔ ∃ i j, p = [i; j] ∧ (i < j < k)%nat)
  ∧ (∀ k, NoDup (unordered_pairs k))
  ∧ (frontier = [] →
     exhaustive_plan terms out d memory = [full_step (length terms)])
  ∧ (∀ c, exhaustive_selected terms out d memory = Some c →
       exhaustive_plan terms out d memory = cand_positions c
       ∧ (∃ i, frontier !! i = Some c
               ∧ (∀ j c', frontier !! j = Some c' →
                          cand_cost c ≤ cand_cost c')
               ∧ (∀ j c', (j < i)%nat → frontier !! j = Some c' →
                          cand_cost c < cand_cost c'))
       ∧ feasible_plan out d memory terms (cand_positions c)
       ∧ cand_cost c = plan_cost out d terms (cand_positions c)
       ∧ (∀ plan, feasible_plan out d memory terms plan →
                  plan_cost out d terms (cand_positions c)
                  ≤ plan_cost out d terms plan)).
Proof.
  intros Hn Hd. cbv zeta. split_and!.
  - by apply path_optimal_plan.
  - intros k p. apply elem_of_triu_indices.
  - intros k. apply NoDup_triu_indices.
  - intros Hnil. unfold exhaustive_plan, exhaustive_selected. by rewrite Hnil.
  - intros c Hc. split_and!.
    + unfold exhaustive_plan. by rewrite Hc.
    + by apply first_min_cost_Some.
    + by apply exhaustive_selected_optimal in Hc as (? & _).
    + by apply exhaustive_selected_optimal in Hc as (_ & ? & _).
    + by apply exhaustive_selected_optimal in Hc as (_ & _ & ?).
Qed.

Lemma path_optimal_exhaustive_witness :
  (1 < length chain_inp)%nat
  ∧ dims_cover chain_dims (set_of <$> chain_inp)
  ∧ _path_optimal chain_inp chain_out chain_dims 24
    = Ok (exhaustive_plan (set_of <$> chain_inp) chain_out chain_dims 24).
Proof.
  assert (1 < length chain_inp)%nat as Hn by (simpl; lia).
  assert (dims_cover chain_dims (set_of <$> chain_inp)) as Hd by by_compute.
  split_and!; [done..|].
  exact (proj1 (path_optimal_exhaustive chain_inp chain_out chain_dims 24 Hn Hd)).
Defined.

(** C5: [_path_opportunistic] plays the greedy rounds of the specification:
    each round looks at every unordered pair of the live positions, keeps
    those whose result labels fit the memory ceiling, commits a surviving
    pair that is least for the key (-size of eliminated labels, size of
    touched labels), and plays the next round on the updated operand terms
    (a round with no survivor ends the plan with one step over all live
    positions). *)
Theorem path_opportunistic_greedy (inp : list str) (out : labels) (d : dims)
    (memory : Z) :
  dims_cover d (set_of <$> inp) →
  (∃ plan,
     _path_opportunistic inp out d memory = Ok plan
     ∧ greedy_run out d memory (length inp - 1) (set_of <$> inp) plan)
  ∧ (∀ k p, p ∈ unordered_pairs k ↔ ∃ i j, p = [i; j] ∧ (i < j < k)%nat)
  ∧ (∀ k, NoDup (unordered_pairs k)).
Proof.
  intros Hd. split_and!; [by apply path_opportunistic_run| |].
  - intros k p. apply elem_of_triu_indices.
  - intros k. apply NoDup_triu_indices.
Qed.

Lemma path_opportunistic_greedy_witness :
  dims_cover chain_dims (set_of <$> chain_inp)
  ∧ ∃ plan,
      _path_opportunistic chain_inp chain_out chain_dims 24 = Ok plan
      ∧ greedy_run chain_out chain_dims 24 (length chain_inp - 1)
          (set_of <$> chain_inp) plan.
Proof.
  assert (dims_cover chain_dims (set_of <$> chain_inp)) as Hd by by_compute.
  split; [done|].
  exact (proj1 (path_opportunistic_greedy chain_inp chain_out chain_dims 24 Hd)).
Defined.

Example path_opportunistic_chain :
  _path_opportunistic chain_inp chain_out chain_dims 24
  = Ok [[1; 2]; [0; 1]]%nat.
Proof. vm_compute. reflexivity. Qed.

(** C2 (failing input): on [i,i,jk->k] both strategies plan
    [(0, 1), (0, 1)], two steps for three operands, and on the operand label
    sets the plan leaves the single set [{k}], the output labels. The
    contraction loop does not: its second step multiplies the scalar left by
    the first step with the operand [jk] and records the term [jk], although
    [_find_contraction] has eliminated [j] in that step; the one operand left
    carries the labels [{j, k}], and only the closing [np.einsum] of
    [jk->k] sums [j] away. *)
Theorem contract_scalar_step_keeps_label :
  _path_opportunistic dot_scale_inp dot_scale_out dot_scale_dims 10000
  = Ok [[0; 1]; [0; 1]]%nat
  ∧ _path_optimal dot_scale_inp dot_scale_out dot_scale_dims 10000
    = Ok [[0; 1]; [0; 1]]%nat
  ∧ replay dot_scale_out (set_of <$> dot_scale_inp) [[0; 1]; [0; 1]]%nat
    = [dot_scale_out]
  ∧ contract dot_scale_string dot_scale_views no_kwargs
    = Ok (Contracted dot_scale_steps (chars "jk") (Some (chars "jk->k")))
  ∧ contract dot_scale_string dot_scale_views (kw_path_name "optimal")
    = Ok (Contracted dot_scale_steps (chars "jk") (Some (chars "jk->k")))
  ∧ set_of (chars "jk") ≠ dot_scale_out.
Proof.
  split_and!; [by vm_compute..| |by vm_compute|by vm_compute|by_compute].
  by_compute.
Qed.

(** C6 (failing input): [ij->i] on a 1000 x 1000 operand passes validation
    and reaches the planner; with the exhaustive strategy planning raises
    [UnboundLocalError], as it does for every single operand, where the
    greedy strategy returns the empty plan and [contract] goes on. *)
Theorem contract_optimal_single_operand :
  contract rowsum_string rowsum_views (kw_path_name "optimal")
  = Raise UnboundLocalError
  ∧ contract rowsum_string rowsum_views no_kwargs
    = Ok (Contracted [] (chars "ij") (Some (chars "ij->i")))
  ∧ ∀ term out d memory,
      _path_optimal [term] out d memory = Raise UnboundLocalError
      ∧ _path_opportunistic [term] out d memory = Ok [].
Proof.
  split_and!; [by vm_compute..|]. intros. apply path_optimal_single_operand.
Qed.

(** The caller asks for a ceiling of 10^9 elements; the greedy strategy is
    called with 120000, the size of the largest operand. *)
Lemma contract_memory_ceiling_counterexample :
  ∃ su,
    contract_setup (chars "ij,jk,kl") (chars "il") big_chain_views = Ok su
    ∧ kw_memory (kw_with_memory 1000000000) = Some 1000000000
    ∧ contract_request su (kw_with_memory 1000000000)
      = Ok (CallOpportunistic (su_input_list su) (su_output_set su)
              (su_dimension_dict su) 120000)
    ∧ 120000 ≠ 1000000000.
Proof.
  destruct (contract_setup (chars "ij,jk,kl") (chars "il") big_chain_views)
    as [su|e] eqn:Hsu; [|by vm_compute in Hsu].
  exists su. split_and!; [done..| |done].
  vm_compute in Hsu. injection Hsu as <-. by vm_compute.
Qed.

Lemma contract_memory_ceiling_witness :
  ∃ su,
    contract_setup (chars "ij,jk,kl") (chars "il") big_chain_views = Ok su
    ∧ contract_request su (kw_path_name "optimal")
      = Ok (CallOptimal (su_input_list su) (su_output_set su)
              (su_dimension_dict su) (su_out_size su)).
Proof.
  destruct (contract_setup (chars "ij,jk,kl") (chars "il") big_chain_views)
    as [su|e] eqn:Hsu; [|by vm_compute in Hsu].
  exists su. split; [done|].
  destruct (contract_memory_ceiling _ _ _ (kw_path_name "optimal") su Hsu)
    as (_ & Hopt & _).
  apply Hopt; [|done].
  vm_compute in Hsu. injection Hsu as <-. by vm_compute.
Defined.

(** An unrecognized strategy name on a small problem and on a large
    two-operand problem: no error is raised. *)
Lemma contract_unknown_strategy_counterexample :
  contract (chars "ij,jk->ik") [[2; 3]; [3; 4]] (kw_path_name "bogus")
  = Ok (DirectEinsum (chars "ij,jk->ik"))
  ∧ ∃ steps,
      contract (chars "ij,jk->ik") [[2000; 3000]; [3000; 4000]]
        (kw_path_name "bogus")
      = Ok (Contracted steps (chars "ki") (Some (chars "ki->ik"))).
Proof. split; [by vm_compute|]. eexists. by vm_compute. Qed.

Lemma contract_errors_witness :
  split_expression (chars "i.,j->") = Ok (chars "i.,j", [])
  ∧ contract (chars "i.,j->") [[2]; [2]] no_kwargs
    = Raise UnsupportedExpression.
Proof.
  assert (split_expression (chars "i.,j->") = Ok (chars "i.,j", [])) as Hsplit
    by (vm_compute; reflexivity).
  split; [done|].
  apply (proj1 (contract_errors _ _ _ [[2]; [2]] no_kwargs Hsplit)).
  left. by_compute.
Defined.

Lemma contract_infers_output_witness :
  has_arrow (chars "ij,jk,kl") = false
  ∧ infer_output (chars "ij,jk,kl") = chars "il"
  ∧ contract (chars "ij,jk,kl") big_chain_views no_kwargs
    = contract_parsed (chars "ij,jk,kl") (chars "ij,jk,kl")
        (infer_output (chars "ij,jk,kl")) big_chain_views no_kwargs.
Proof.
  assert (has_arrow (chars "ij,jk,kl") = false) as Hs by reflexivity.
  split_and!; [done|by vm_compute|].
  exact (proj1 (proj2 (proj2
    (contract_infers_output (chars "ij,jk,kl") big_chain_views no_kwargs Hs)))).
Defined.
